(** * bruno-docs: the .bru request extractor and the Markdown renderer

    A shallow embedding of [src/main.py]: [parse_bru_file] (with its local
    helper [parse_params_block]), [generate_request_markdown] and the sort
    that [main] applies to the records of one folder.

    Modelling choices.
    - A Python [str] is a list of characters; a character is an 8-bit code
      point (code points 0 to 255), and the character classes of [re] and of
      [str.strip] are the ones Python has on that range.
    - [re.search] is a backtracking matcher over the fragment of regular
      expressions the source uses: literals, an alternation of literals, a
      repeated character class (greedy or lazy), the anchors [^] and [$] of
      [re.MULTILINE], and capture groups around one atom.
    - A Python [dict] is an association list in insertion order with unique
      keys; [int] is an unbounded integer ([Z]).
    - [json.loads] and [json.dumps] are parameters of the development. *)

From Stdlib Require Import List Ascii String ZArith Lia Bool Arith.
From Stdlib Require Import Permutation Sorted.
Import ListNotations.

Open Scope string_scope.
Open Scope list_scope.
Open Scope nat_scope.

(** ** Python strings *)

Definition str := list ascii.

Coercion list_ascii_of_string : string >-> list.

Definition nl : ascii := ascii_of_nat 10.
Definition colon : ascii := ascii_of_nat 58.
Definition lbrace : ascii := ascii_of_nat 123.
Definition rbrace : ascii := ascii_of_nat 125.

Definition in_range (lo hi : nat) (c : ascii) : bool :=
  let n := nat_of_ascii c in (lo <=? n) && (n <=? hi).

(** [\s] of [re] and the characters [str.strip] removes: [str.isspace]. *)
Definition is_space (c : ascii) : bool :=
  in_range 9 13 c || in_range 28 32 c
  || (nat_of_ascii c =? 133) || (nat_of_ascii c =? 160).

(** [\d] of [re]: the decimal digits. *)
Definition is_digit (c : ascii) : bool := in_range 48 57 c.

(** [\w] of [re]: alphanumeric characters and the underscore. *)
Definition is_word (c : ascii) : bool :=
  in_range 48 57 c || in_range 65 90 c || (nat_of_ascii c =? 95)
  || in_range 97 122 c || (nat_of_ascii c =? 170) || in_range 178 179 c
  || (nat_of_ascii c =? 181) || in_range 185 186 c || in_range 188 190 c
  || in_range 192 214 c || in_range 216 246 c || in_range 248 255 c.

(** [.] of [re] without [re.DOTALL]: anything but a newline. *)
Definition is_dot (c : ascii) : bool := negb (Ascii.eqb c nl).

(** [[\s\S]]: any character. *)
Definition is_any (c : ascii) : bool := is_space c || negb (is_space c).

Definition lower_char (c : ascii) : ascii :=
  let n := nat_of_ascii c in
  if in_range 65 90 c || (in_range 192 222 c && negb (n =? 215))
  then ascii_of_nat (n + 32) else c.

(** The upper case of three characters (181, 223, 255) lies outside the 8-bit
    range; [upper] leaves them alone.  The source upper-cases only the
    matched method tag, which is made of ASCII letters. *)
Definition upper_char (c : ascii) : ascii :=
  let n := nat_of_ascii c in
  if in_range 97 122 c || (in_range 224 254 c && negb (n =? 247))
  then ascii_of_nat (n - 32) else c.

Definition lower (s : str) : str := map lower_char s.
Definition upper (s : str) : str := map upper_char s.

Fixpoint lstrip (s : str) : str :=
  match s with
  | c :: s' => if is_space c then lstrip s' else s
  | [] => []
  end.

Definition rstrip (s : str) : str := rev (lstrip (rev s)).

(** [s.strip()] *)
Definition strip (s : str) : str := rstrip (lstrip s).

(** [s.split(sep)] for a one-character separator: never an empty list. *)
Fixpoint split (sep : ascii) (s : str) : list str :=
  match s with
  | [] => [[]]
  | c :: s' =>
      if Ascii.eqb c sep then [] :: split sep s'
      else match split sep s' with
           | l :: ls => (c :: l) :: ls
           | [] => [[c]]
           end
  end.

(** [sep in s] *)
Definition contains (sep : ascii) (s : str) : bool :=
  existsb (Ascii.eqb sep) s.

(** [s.split(sep, 1)] when [sep in s]: the text before the first separator
    and the text after it. *)
Fixpoint split_first (sep : ascii) (s : str) : str * str :=
  match s with
  | [] => ([], [])
  | c :: s' =>
      if Ascii.eqb c sep then ([], s')
      else let (k, v) := split_first sep s' in (c :: k, v)
  end.

(** [sep.join(l)] *)
Fixpoint join (sep : str) (l : list str) : str :=
  match l with
  | [] => []
  | [x] => x
  | x :: l' => x ++ sep ++ join sep l'
  end.

Definition str_eqb (a b : str) : bool :=
  if list_eq_dec ascii_dec a b then true else false.

(** [int(s)] for a string of decimal digits. *)
Definition digit_value (c : ascii) : Z := Z.of_nat (nat_of_ascii c - 48).

Definition int_of_digits (s : str) : Z :=
  fold_left (fun acc c => 10 * acc + digit_value c)%Z s 0%Z.

(** ** Regular expressions: the fragment of [re] the source uses *)

Inductive atom : Type :=
| Lit (s : str)                                   (* literal text *)
| Alt (alts : list str)                           (* a|b|c, of literals *)
| Rep (c : ascii -> bool) (lo : nat) (greedy : bool)
                                                  (* c*  c+  c*?  *)
| Bol                                             (* ^ under re.MULTILINE *)
| Eol                                             (* $ under re.MULTILINE *)
| Cap (a : atom).                                 (* ( a ) *)

Definition regex := list atom.

Definition char_eq (ic : bool) (a c : ascii) : bool :=
  if ic then Ascii.eqb (lower_char a) (lower_char c) else Ascii.eqb a c.

(** The literal [l] at the head of [s]: the text matched and the rest. *)
Fixpoint lit_split (ic : bool) (l s : str) : option (str * str) :=
  match l, s with
  | [], _ => Some ([], s)
  | a :: l', c :: s' =>
      if char_eq ic a c then
        match lit_split ic l' s' with
        | Some (w, r) => Some (c :: w, r)
        | None => None
        end
      else None
  | _ :: _, [] => None
  end.

(** Length of the longest prefix of [s] inside the class [c]. *)
Fixpoint run (c : ascii -> bool) (s : str) : nat :=
  match s with
  | x :: s' => if c x then S (run c s') else 0
  | [] => 0
  end.

(** The repetition counts a quantifier tries, in the order it tries them:
    a greedy one from the longest down, a lazy one from the shortest up. *)
Definition rep_counts (lo n : nat) (greedy : bool) : list nat :=
  let ks := List.seq lo (S n - lo) in
  if greedy then rev ks else ks.

Definition opt_list {A} (o : option A) : list A :=
  match o with Some x => [x] | None => [] end.

(** The ways an atom can match at the head of [s], by decreasing priority;
    [prev] is the character before the current position. *)
Fixpoint atom_splits (ic : bool) (a : atom) (prev : option ascii) (s : str)
  : list (str * str) :=
  match a with
  | Lit l => opt_list (lit_split ic l s)
  | Alt alts => flat_map (fun l => opt_list (lit_split ic l s)) alts
  | Rep c lo greedy =>
      map (fun k => (firstn k s, skipn k s)) (rep_counts lo (run c s) greedy)
  | Bol =>
      match prev with
      | None => [([], s)]
      | Some c => if Ascii.eqb c nl then [([], s)] else []
      end
  | Eol =>
      match s with
      | [] => [([], s)]
      | c :: _ => if Ascii.eqb c nl then [([], s)] else []
      end
  | Cap a' => atom_splits ic a' prev s
  end.

Definition captures (a : atom) : bool :=
  match a with Cap _ => true | _ => false end.

Definition last_char (prev : option ascii) (w : str) : option ascii :=
  fold_left (fun _ c => Some c) w prev.

Fixpoint first_some {A B} (f : A -> option B) (l : list A) : option B :=
  match l with
  | [] => None
  | x :: l' => match f x with Some y => Some y | None => first_some f l' end
  end.

(** Backtracking match of the pattern [p] at the head of [s]: the captured
    groups, in order, and the text left after the match. *)
Fixpoint match_here (ic : bool) (p : regex) (prev : option ascii) (s : str)
  : option (list str * str) :=
  match p with
  | [] => Some ([], s)
  | a :: p' =>
      first_some
        (fun wr : str * str =>
           match match_here ic p' (last_char prev (fst wr)) (snd wr) with
           | Some (caps, rest) =>
               Some (if captures a then fst wr :: caps else caps, rest)
           | None => None
           end)
        (atom_splits ic a prev s)
  end.

(** [re.search]: the match at the leftmost position that has one.  The
    result lists group 0 (the whole match) and then the capture groups. *)
Fixpoint search_from (ic : bool) (p : regex) (prev : option ascii) (s : str)
  : option (list str) :=
  match match_here ic p prev s with
  | Some (caps, rest) =>
      Some (firstn (List.length s - List.length rest) s :: caps)
  | None =>
      match s with
      | [] => None
      | c :: s' => search_from ic p (Some c) s'
      end
  end.

Definition re_search (ic : bool) (p : regex) (s : str) : option (list str) :=
  search_from ic p None s.

(** [m.group(i)] *)
Definition group (m : list str) (i : nat) : str := nth i m [].

(** ** Python dictionaries with string keys and values *)

Definition dict := list (str * str).

(** [d[k] = v]: a key already present keeps its position. *)
Fixpoint dict_set (d : dict) (k v : str) : dict :=
  match d with
  | [] => [(k, v)]
  | (k', v') :: d' =>
      if str_eqb k' k then (k', v) :: d' else (k', v') :: dict_set d' k v
  end.

(** ** The patterns of [parse_bru_file] *)

(** [\s*\{([\s\S]*?)\}], the tail every block pattern shares. *)
Definition block_tail : regex :=
  [Rep is_space 0 true; Lit "{"; Cap (Rep is_any 0 false); Lit "}"].

(** [r'meta\s*\{([\s\S]*?)\}'] *)
Definition meta_re : regex := Lit "meta" :: block_tail.

(** [r'name:\s*( .* )'], written here with spaces inside the group. *)
Definition name_re : regex :=
  [Lit "name:"; Rep is_space 0 true; Cap (Rep is_dot 0 true)].

(** [r'seq:\s*(\d+)'] *)
Definition seq_re : regex :=
  [Lit "seq:"; Rep is_space 0 true; Cap (Rep is_digit 1 true)].

Definition METHODS : list str :=
  ["get" : str; "post" : str; "put" : str; "patch" : str; "delete" : str;
   "options" : str; "head" : str].

(** [r'(get|post|put|patch|delete|options|head)\s*\{([\s\S]*?)\}'],
    searched with [re.IGNORECASE]. *)
Definition method_re : regex := Cap (Alt METHODS) :: block_tail.

(** [r'^url:\s*(.+)$'], searched with [re.MULTILINE]. *)
Definition url_re : regex :=
  [Bol; Lit "url:"; Rep is_space 0 true; Cap (Rep is_dot 1 true); Eol].

(** [fr'{block_name}\s*\{{([\s\S]*?)\}}']: the block names the source passes
    contain no character that is special in a pattern. *)
Definition params_re (block_name : str) : regex := Lit block_name :: block_tail.

(** [r'body:(\w+)\s*\{([\s\S]*?)\}'] *)
Definition body_re : regex :=
  Lit "body:" :: Cap (Rep is_word 1 true) :: block_tail.

(** [r'\{( [\s\S]* )\}'], written here with spaces inside the group. *)
Definition json_body_re : regex :=
  [Lit "{"; Cap (Rep is_any 0 true); Lit "}"].

(** ** The request record *)

Record RequestRecord : Type := mkRequest {
  name : str;
  seq : Z;
  method : str;
  url : str;
  path_params : dict;
  query_params : dict;
  headers : dict;
  body : str
}.

(** The loop body of [parse_params_block]. *)
Definition params_step (params : dict) (line : str) : dict :=
  let line := strip line in
  if contains colon line then
    let (key, value) := split_first colon line in
    dict_set params (strip key) (strip value)
  else params.

Definition parse_params_block (block_name : str) (text : str) : dict :=
  let params := [] in
  match re_search false (params_re block_name) text with
  | Some block_match =>
      let block_content := strip (group block_match 1) in
      let lines := split nl block_content in
      fold_left params_step lines params
  | None => params
  end.

Section Extractor.

(** The [json] module: the parsed values, what [json.loads] does on a text
    (a value, [json.JSONDecodeError], or another exception such as
    [RecursionError]) and [json.dumps(_, indent=2)]. *)
Variable J : Type.

Inductive loads_result : Type :=
| Parsed (v : J)
| JSONDecodeError
| OtherError.

Variable json_loads : str -> loads_result.
Variable json_dumps_indent2 : J -> str.

(** The body part of [parse_bru_file]; [None] is an exception that the
    handler for [json.JSONDecodeError] does not catch. *)
Definition parse_body (content : str) : option str :=
  let body_content : str := [] in
  match re_search false body_re content with
  | Some body_match =>
      let body_type := group body_match 1 in
      let raw_body := strip (group body_match 2) in
      if str_eqb (lower body_type) "json" then
        match re_search false json_body_re raw_body with
        | Some json_body_match =>
            let json_str := group json_body_match 0 in
            match json_loads json_str with
            | Parsed parsed_json =>
                Some ("```json" ++ [nl] ++ json_dumps_indent2 parsed_json
                        ++ [nl] ++ "```")
            | JSONDecodeError => Some ("```" ++ [nl] ++ raw_body ++ [nl] ++ "```")
            | OtherError => None
            end
        | None => Some ("```json" ++ [nl] ++ raw_body ++ [nl] ++ "```")
        end
      else Some ("```" ++ body_type ++ [nl] ++ raw_body ++ [nl] ++ "```")
  | None => Some body_content
  end.

(** [parse_bru_file], from the text of the file on; [None] is the source's
    [None], returned directly or by the [except Exception] handler. *)
Definition parse_bru_file (content : str) : option RequestRecord :=
  match re_search false meta_re content with
  | None => None
  | Some meta_match =>
      let meta_content := group meta_match 1 in
      let name_match := re_search false name_re meta_content in
      let seq_match := re_search false seq_re meta_content in
      match re_search true method_re content with
      | None => None
      | Some method_match =>
          let method := upper (group method_match 1) in
          let method_content := group method_match 2 in
          let url_match := re_search false url_re method_content in
          let path_params := parse_params_block "params:path" content in
          let query_params := parse_params_block "params:query" content in
          let headers := parse_params_block "headers" content in
          match parse_body content with
          | None => None
          | Some body_content =>
              Some {|
                name := match name_match with
                        | Some m => strip (group m 1)
                        | None => "Unnamed Request"
                        end;
                seq := match seq_match with
                       | Some m => int_of_digits (group m 1)
                       | None => 999%Z
                       end;
                method := method;
                url := match url_match with
                       | Some m => strip (group m 1)
                       | None => "No URL found"
                       end;
                path_params := path_params;
                query_params := query_params;
                headers := headers;
                body := body_content
              |}
          end
      end
  end.

End Extractor.

Arguments Parsed {J} v.
Arguments JSONDecodeError {J}.
Arguments OtherError {J}.

(** ** The renderer *)

(** [generate_table], appending to the list [md] of output lines. *)
Definition generate_table (md : list str) (title : str) (params : dict)
  : list str :=
  match params with
  | [] => md
  | _ :: _ =>
      let md := md ++ ["**" ++ title ++ "**" ++ [nl]] in
      let md := md ++ ["| Name | Value / Description |" : str] in
      let md := md ++ ["|------|---------------------|" : str] in
      let md :=
        fold_left
          (fun md kv => md ++ ["| `" ++ fst kv ++ "` | " ++ snd kv ++ " |"])
          params md in
      md ++ [[]]
  end.

Definition generate_request_markdown (req_data : RequestRecord) : str :=
  let md : list str := [] in
  let md := md ++ ["### " ++ name req_data ++ [nl]] in
  let md := md ++ ["**`" ++ method req_data ++ "`** `" ++ url req_data
                     ++ "`" ++ [nl]] in
  let md := generate_table md "Path Parameters" (path_params req_data) in
  let md := generate_table md "Query Parameters" (query_params req_data) in
  let md := generate_table md "Headers" (headers req_data) in
  let md :=
    match body req_data with
    | [] => md
    | _ :: _ => (md ++ ["**Body**" ++ [nl]]) ++ [body req_data]
    end in
  join [nl] md ++ [nl] ++ "---" ++ [nl].

(** ** The records of one folder, as [main] orders them *)

(** [list.sort(key=...)] is a stable sort by ascending key; it is modelled by
    a stable insertion sort. *)
Fixpoint insert_by {A} (key : A -> Z) (x : A) (l : list A) : list A :=
  match l with
  | [] => [x]
  | y :: l' =>
      if (key x <=? key y)%Z then x :: l else y :: insert_by key x l'
  end.

Fixpoint sort_by {A} (key : A -> Z) (l : list A) : list A :=
  match l with
  | [] => []
  | x :: l' => insert_by key x (sort_by key l')
  end.

Section Folder.

Variable J : Type.
Variable json_loads : str -> loads_result J.
Variable json_dumps_indent2 : J -> str.

(** The loop of [main] over the request files of a directory, given the
    texts of the files in discovery order. *)
Definition requests_of (files : list str) : list RequestRecord :=
  fold_left
    (fun requests_data content =>
       match parse_bru_file J json_loads json_dumps_indent2 content with
       | Some parsed_data => requests_data ++ [parsed_data]
       | None => requests_data
       end)
    files [].

(** [requests_data.sort(key=lambda r: r.get('seq', 999))]: every record has
    a [seq] entry. *)
Definition sorted_requests (files : list str) : list RequestRecord :=
  sort_by seq (requests_of files).

(** The text of the folder's README, when the folder has a request. *)
Definition folder_markdown (folder_name : str) (files : list str) : str :=
  let markdown_content := ["# " ++ folder_name ++ [nl]] in
  let markdown_content :=
    fold_left (fun acc req => acc ++ [generate_request_markdown req])
      (sorted_requests files) markdown_content in
  join [nl] markdown_content.

End Folder.

(** ** The traversal of [main] *)

(** [main] from the point where the collection descriptor has been read:
    the collection name and the ignore list are given, the directory tree is
    given as [os.walk] lists it, and the result is the list of files written,
    by path relative to the output directory.  Paths are POSIX paths;
    failures of creating directories and of writing files are not
    modelled. *)

(** [s.endswith(suffix)] *)
Definition endswith (s suffix : str) : bool :=
  (List.length suffix <=? List.length s)
  && str_eqb (skipn (List.length s - List.length suffix) s) suffix.

(** [x in l], for a list of strings. *)
Definition str_in (x : str) (l : list str) : bool := existsb (str_eqb x) l.

Definition backslash : ascii := ascii_of_nat 92.
Definition slash : ascii := ascii_of_nat 47.

(** [s.replace(old, new)], for single characters. *)
Definition replace_char (old new : ascii) (s : str) : str :=
  map (fun c => if Ascii.eqb c old then new else c) s.

(** A directory as [os.walk] lists it: its name, its files (name and text;
    [None] for a file whose text cannot be read) and its sub-directories. *)
#[warning="-register-all"]
Inductive tree : Type :=
| Dir (dname : str) (files : list (str * option str)) (subdirs : list tree).

Definition dir_name (t : tree) : str :=
  match t with Dir dname _ _ => dname end.

Definition dir_files (t : tree) : list (str * option str) :=
  match t with Dir _ files _ => files end.

Definition dir_subdirs (t : tree) : list tree :=
  match t with Dir _ _ subdirs => subdirs end.

(** A path relative to the output directory, by components. *)
Definition path := list str.

(** [str(path)] with the separator of POSIX paths. *)
Definition path_str (p : path) : str := join "/" p.

(** The order of Python sequences: the first place where two sequences
    differ decides, and a proper prefix comes first. *)
Fixpoint lex_ltb {A} (ltb : A -> A -> bool) (a b : list A) : bool :=
  match a, b with
  | _, [] => false
  | [], _ :: _ => true
  | x :: a', y :: b' =>
      if ltb x y then true
      else if ltb y x then false
      else lex_ltb ltb a' b'
  end.

Definition char_ltb (x y : ascii) : bool := nat_of_ascii x <? nat_of_ascii y.

(** The order of Python strings: lexicographic, by code point. *)
Definition str_ltb : str -> str -> bool := lex_ltb char_ltb.

(** The order of relative paths: lexicographic on their components. *)
Definition path_ltb : path -> path -> bool := lex_ltb str_ltb.

(** The order of the pairs (name, path) in [top_level_folders]. *)
Definition folder_ltb (a b : str * path) : bool :=
  if str_ltb (fst a) (fst b) then true
  else if str_ltb (fst b) (fst a) then false
  else path_ltb (snd a) (snd b).

(** [list.sort()], a stable sort, for an order given by its [<]. *)
Fixpoint insert_lt {A} (ltb : A -> A -> bool) (x : A) (l : list A) : list A :=
  match l with
  | [] => [x]
  | y :: l' => if ltb y x then y :: insert_lt ltb x l' else x :: l
  end.

Fixpoint sort_lt {A} (ltb : A -> A -> bool) (l : list A) : list A :=
  match l with
  | [] => []
  | x :: l' => insert_lt ltb x (sort_lt ltb l')
  end.

(** What [main] has written and collected so far. *)
Record main_state : Type := mkState {
  written : list (path * str);
  top_level_folders : list (str * path)
}.

Section Main.

Variable J : Type.
Variable json_loads : str -> loads_result J.
Variable json_dumps_indent2 : J -> str.

(** The display name of a directory: the [name:] of its [folder.bru] when
    the file is there, can be read and has one. *)
Definition folder_display_name (root_name : str)
  (files : list (str * option str)) : str :=
  let folder_name := root_name in
  match find (fun f => str_eqb (fst f) "folder.bru") files with
  | Some (_, Some content) =>
      match re_search false name_re content with
      | Some name_match => strip (group name_match 1)
      | None => folder_name
      end
  | Some (_, None) => folder_name
  | None => folder_name
  end.

(** [parse_bru_file] from the file on: a file that cannot be read gives
    [None] through the handler. *)
Definition parse_file (text : option str) : option RequestRecord :=
  match text with
  | Some content => parse_bru_file J json_loads json_dumps_indent2 content
  | None => None
  end.

(** The loop over the files of a directory. *)
Definition directory_requests (files : list (str * option str))
  : list RequestRecord :=
  fold_left
    (fun requests_data file =>
       if endswith (fst file) ".bru" && negb (str_eqb (fst file) "folder.bru")
       then match parse_file (snd file) with
            | Some parsed_data => requests_data ++ [parsed_data]
            | None => requests_data
            end
       else requests_data)
    files [].

(** The text of a directory's README; [None] when the directory has no
    request and the loop goes on to the next directory. *)
Definition folder_document (root_name : str)
  (files : list (str * option str)) : option str :=
  let folder_name := folder_display_name root_name files in
  let requests_data := directory_requests files in
  match requests_data with
  | [] => None
  | _ :: _ =>
      let requests_data := sort_by seq requests_data in
      let markdown_content := ["# " ++ folder_name ++ [nl]] in
      let markdown_content :=
        fold_left (fun acc req => acc ++ [generate_request_markdown req])
          requests_data markdown_content in
      Some (join [nl] markdown_content)
  end.

(** One round of the loop over [os.walk]: the directory at the relative
    path [rel]. *)
Definition visit (rel : path) (root_name : str)
  (files : list (str * option str)) (st : main_state) : main_state :=
  match folder_document root_name files with
  | None => st
  | Some markdown =>
      let st := mkState (written st ++ [(rel ++ ["README.md" : str], markdown)])
                  (top_level_folders st) in
      if List.length rel =? 1
      then mkState (written st)
             (top_level_folders st
                ++ [(folder_display_name root_name files,
                     rel ++ ["README.md" : str])])
      else st
  end.

(** The walk, top down; a sub-directory whose name is in the ignore list is
    dropped from the list of directories to visit. *)
Fixpoint walk (ignore_list : list str) (rel : path) (t : tree)
  (st : main_state) : main_state :=
  match t with
  | Dir root_name files dirs =>
      let st := visit rel root_name files st in
      fold_left
        (fun st d =>
           if str_in (dir_name d) ignore_list then st
           else walk ignore_list (rel ++ [dir_name d]) d st)
        dirs st
  end.

(** A line of the index. *)
Definition index_link (entry : str * path) : str :=
  "- [" ++ fst entry ++ "]("
    ++ replace_char backslash slash (path_str (snd entry)) ++ ")".

(** The text of the main README. *)
Definition index_document (collection_name : str)
  (folders : list (str * path)) : str :=
  let top_level_readme_content :=
    ["# API Documentation: " ++ collection_name ++ [nl]] in
  let top_level_readme_content :=
    match folders with
    | [] => top_level_readme_content
    | _ :: _ =>
        fold_left (fun acc entry => acc ++ [index_link entry])
          (sort_lt folder_ltb folders)
          (top_level_readme_content ++ ["## Endpoints" ++ [nl]])
    end in
  join [nl] top_level_readme_content.

(** [main], once the collection descriptor has given the name and the
    ignore list: the files written, in order. *)
Definition main_writes (collection_name : str) (ignore : list str)
  (collection : tree) : list (path * str) :=
  let ignore_list := ignore ++ [".git" : str; "node_modules" : str] in
  let st := walk ignore_list [] collection (mkState [] []) in
  written st
  ++ [(["README.md" : str],
       index_document collection_name (top_level_folders st))].

End Main.

(** The text a path holds after the writes: that of the last write to it. *)
Definition read_back (writes : list (path * str)) (p : path) : option str :=
  option_map snd
    (find (fun w => if list_eq_dec (list_eq_dec ascii_dec) (fst w) p
                    then true else false)
       (rev writes)).

(** ** The traversal, read declaratively *)

(** A file the loop over a directory parses: its name ends in [.bru] and is
    not [folder.bru]. *)
Definition is_request_file (file_name : str) : bool :=
  endswith file_name ".bru" && negb (str_eqb file_name "folder.bru").

(** The directory [t'] lies under [t] at the relative path [p], and no
    directory on the way has its name in the ignore list. *)
Inductive reach (ignore_list : list str) : tree -> path -> tree -> Prop :=
| reach_here t : reach ignore_list t [] t
| reach_sub root_name files dirs d p t' :
    In d dirs -> str_in (dir_name d) ignore_list = false ->
    reach ignore_list d p t' ->
    reach ignore_list (Dir root_name files dirs) (dir_name d :: p) t'.

Section TopLevel.

Variable J : Type.
Variable json_loads : str -> loads_result J.
Variable json_dumps_indent2 : J -> str.

(** The entry of a directory just below the collection root: its display
    name and the path of its README, when it has one. *)
Definition top_level_entry (d : tree) : list (str * path) :=
  match folder_document J json_loads json_dumps_indent2
          (dir_name d) (dir_files d) with
  | Some _ =>
      [(folder_display_name (dir_name d) (dir_files d),
        [dir_name d; "README.md" : str])]
  | None => []
  end.

(** The directories the index is to link. *)
Definition top_level_entries (ignore_list : list str) (collection : tree)
  : list (str * path) :=
  flat_map
    (fun d => if str_in (dir_name d) ignore_list then []
              else top_level_entry d)
    (dir_subdirs collection).

End TopLevel.

(** ** The body block, read declaratively *)

(** The text has, after [pre], a block [body:ty ws { inner } post]. *)
Definition body_block_at (text pre ty ws inner post : str) : Prop :=
  text = pre ++ "body:" ++ ty ++ ws ++ lbrace :: inner ++ rbrace :: post
  /\ forallb is_word ty = true /\ ty <> []
  /\ forallb is_space ws = true.

Definition has_body_block (text : str) : Prop :=
  exists pre ty ws inner post, body_block_at text pre ty ws inner post.

(** The label of the fence: [json] for the subtype [json] in any case,
    the subtype as written otherwise. *)
Definition body_label (ty : str) : str :=
  if str_eqb (lower ty) "json" then "json" else ty.

(** The directories of a tree that share a parent have different names,
    as in a file system. *)
#[warning="-register-all"]
Inductive well_named : tree -> Prop :=
| well_named_dir root_name files dirs :
    NoDup (map dir_name dirs) -> Forall well_named dirs ->
    well_named (Dir root_name files dirs).

(** ** What a pattern matches, read declaratively *)

(** The text [w] is the literal [l], up to case when [ic] is set. *)
Definition lit_eq (ic : bool) (l w : str) : Prop :=
  Forall2 (fun a c => char_eq ic a c = true) l w.

(** The atom [a] matches the prefix [w] of [s] and leaves [r]. *)
Fixpoint atom_sem (ic : bool) (a : atom) (prev : option ascii) (s w r : str)
  : Prop :=
  match a with
  | Lit l => lit_eq ic l w /\ s = w ++ r
  | Alt alts => exists l, In l alts /\ lit_eq ic l w /\ s = w ++ r
  | Rep c lo _ => s = w ++ r /\ forallb c w = true /\ lo <= List.length w
  | Bol => w = [] /\ r = s /\ (prev = None \/ prev = Some nl)
  | Eol => w = [] /\ r = s /\ (s = [] \/ exists s', s = nl :: s')
  | Cap a' => atom_sem ic a' prev s w r
  end.

(** The pattern [p] matches a prefix of [s] with the groups [caps] and
    leaves [rest]: some choice of a split for every atom. *)
Fixpoint matches (ic : bool) (p : regex) (prev : option ascii) (s : str)
  (caps : list str) (rest : str) : Prop :=
  match p with
  | [] => caps = [] /\ rest = s
  | a :: p' =>
      exists w r caps',
        atom_sem ic a prev s w r
        /\ matches ic p' (last_char prev w) r caps' rest
        /\ caps = (if captures a then w :: caps' else caps')
  end.

(** ** Blocks and key lines, read declaratively *)

(** The text has, after [pre], a block [tag ws { inner } post] whose tag is
    one of [tags]. *)
Definition block_at (ic : bool) (tags : list str)
  (text pre tag ws inner post : str) : Prop :=
  text = pre ++ tag ++ ws ++ lbrace :: inner ++ rbrace :: post
  /\ (exists t, In t tags /\ lit_eq ic t tag)
  /\ forallb is_space ws = true.

Definition has_block (ic : bool) (tags : list str) (text : str) : Prop :=
  exists pre tag ws inner post, block_at ic tags text pre tag ws inner post.

(** The first block of the text with a tag among [tags] has the tag [tag]
    and the body [inner]; the body ends at the first closing brace. *)
Definition first_block (ic : bool) (tags : list str) (text tag inner : str)
  : Prop :=
  exists pre ws post,
    block_at ic tags text pre tag ws inner post
    /\ ~ In rbrace inner
    /\ (forall pre' tag' ws' inner' post',
          block_at ic tags text pre' tag' ws' inner' post' ->
          List.length pre <= List.length pre').

(** The text contains [name:] somewhere. *)
Definition name_occurrence (s : str) : Prop :=
  exists pre post, s = pre ++ "name:" ++ post.

(** The text contains [seq:], optional white space and a digit. *)
Definition seq_occurrence (s : str) : Prop :=
  exists pre ws d post,
    s = pre ++ "seq:" ++ ws ++ d :: post
    /\ forallb is_space ws = true /\ is_digit d = true.

(** [pre] ends a line: the text after it starts one. *)
Definition at_line_start (pre : str) : Prop :=
  pre = [] \/ exists pre', pre = pre' ++ [nl].

(** [post] starts with the end of a line. *)
Definition at_line_end (post : str) : Prop :=
  post = [] \/ exists post', post = nl :: post'.


(** A fenced code block of Markdown. *)
Definition fence (label raw : str) : str :=
  "```" ++ label ++ [nl] ++ raw ++ [nl] ++ "```".

(** The body field as [parse_body] comes to compute it on every text: the
    trimmed text of the first [body:] block in a fence, labelled [json] when
    the subtype is [json] in any case and with the subtype otherwise. *)
Definition body_of (content : str) : str :=
  match re_search false body_re content with
  | Some m =>
      fence (if str_eqb (lower (group m 1)) "json" then "json" else group m 1)
        (strip (group m 2))
  | None => []
  end.

(** The seven values of the method field. *)
Definition HTTP_METHODS : list str :=
  ["GET" : str; "POST" : str; "PUT" : str; "PATCH" : str; "DELETE" : str;
   "OPTIONS" : str; "HEAD" : str].

(** ** Sample request files *)

Definition dquote : ascii := ascii_of_nat 34.

(** The two blocks of the minimal example, one per line. *)
Definition minimal_request : str :=
  "meta { name: X" ++ [nl] ++ "seq: 3 }" ++ [nl] ++ "get { url: /foo }".

(** The same request with [url:] at the start of a line. *)
Definition minimal_request_url_line : str :=
  "meta { name: X" ++ [nl] ++ "seq: 3 }" ++ [nl]
  ++ "get {" ++ [nl] ++ "url: /foo" ++ [nl] ++ "}".

(** A request whose name mentions [seq: 12] before its own [seq: 3] line. *)
Definition seq_in_name_request : str :=
  "meta {" ++ [nl] ++ "  name: Retry seq: 12 check" ++ [nl]
  ++ "  seq: 3" ++ [nl] ++ "}" ++ [nl]
  ++ "get {" ++ [nl] ++ "url: /foo" ++ [nl] ++ "}".

(** A request with a JSON body, the object [{ "a": 1 }] on its own line. *)
Definition json_body_request : str :=
  "meta { name: X }" ++ [nl]
  ++ "post {" ++ [nl] ++ "url: /foo" ++ [nl] ++ "}" ++ [nl]
  ++ "body:json {" ++ [nl]
  ++ "  {" ++ [dquote] ++ "a" ++ [dquote] ++ ": 1}" ++ [nl] ++ "}".


(** A folder descriptor: a meta block and no method block. *)
Definition folder_descriptor : str := "meta { name: Users }".

(** ** Parameter blocks, read declaratively *)

(** The entry of a line: the text before its first colon and the text after
    it, both trimmed. *)
Definition line_entry (line : str) : str * str :=
  let (key, value) := split_first colon line in (strip key, strip value).

(** The entries of a block body: one per line that has a colon. *)
Definition block_entries (inner : str) : list (str * str) :=
  map line_entry (filter (contains colon) (split nl (strip inner))).

(** The dictionary built by assigning the entries in order. *)
Definition assign (d : dict) (kv : str * str) : dict :=
  dict_set d (fst kv) (snd kv).

Definition dict_of (entries : list (str * str)) : dict :=
  fold_left assign entries [].

(** [d.get(k)] *)
Fixpoint dict_get (d : dict) (k : str) : option str :=
  match d with
  | [] => None
  | (k', v) :: d' => if str_eqb k' k then Some v else dict_get d' k
  end.

(** The value of the last entry with the key [k]. *)
Definition last_value (k : str) (entries : list (str * str)) : option str :=
  dict_get (rev entries) k.

(** The keys in the order of their first occurrences. *)
Fixpoint first_occurrences (keys : list str) : list str :=
  match keys with
  | [] => []
  | k :: keys' =>
      k :: filter (fun k' => negb (str_eqb k' k)) (first_occurrences keys')
  end.

(** What [parse_params_block] is to return for the block [block_name]. *)
Definition params_spec (block_name text : str) (d : dict) : Prop :=
  (~ has_block false [block_name] text -> d = [])
  /\ (forall inner,
        first_block false [block_name] text block_name inner ->
        d = dict_of (block_entries inner)).

(** ** The rendered section of a record, read declaratively *)




(** ** Sample folders *)

(** A request that declares [seq: 1000]. *)
Definition seq_1000_request : str :=
  "meta { name: A" ++ [nl] ++ "seq: 1000 }" ++ [nl] ++ "get { }".

(** A request that declares no seq. *)
Definition no_seq_request : str := "meta { name: B }" ++ [nl] ++ "get { }".

(** A request that declares [seq: 2]. *)
Definition seq_2_request : str :=
  "meta { name: C" ++ [nl] ++ "seq: 2 }" ++ [nl] ++ "get { }".

(** A request with two headers, a line without a colon and a repeated
    key. *)
Definition headers_request : str :=
  "meta { name: H }" ++ [nl] ++ "get { }" ++ [nl]
  ++ "headers {" ++ [nl] ++ "  A: 1" ++ [nl] ++ "  no colon here" ++ [nl]
  ++ "  B: x:y" ++ [nl] ++ "  A: 3" ++ [nl] ++ "}".

(** ** Auxiliary definitions of the proofs *)

(** Every character, for checks by enumeration. *)
Definition all_ascii : list ascii := map ascii_of_nat (List.seq 0 256).

(** [k in keys] *)
Definition key_in (keys : list str) (k : str) : bool :=
  existsb (fun k' => str_eqb k k') keys.

(** The order of a sort by ascending key. *)
Definition key_le {A} (key : A -> Z) (a b : A) : Prop := (key a <= key b)%Z.

(** A [json] module for the sample files: every text is rejected. *)
Definition sample_loads : str -> loads_result unit := fun _ => JSONDecodeError.
Definition sample_dumps : unit -> str := fun _ => [].

(** The body of the [headers] block of [headers_request]. *)
Definition headers_request_inner : str :=
  [nl] ++ "  A: 1" ++ [nl] ++ "  no colon here" ++ [nl]
  ++ "  B: x:y" ++ [nl] ++ "  A: 3" ++ [nl].

(** The body of the first block tagged [l], as the search finds it. *)
Definition first_block_body (l text : str) : option str :=
  option_map (fun m => group m 1) (re_search false (Lit l :: block_tail) text).

(** ** The values of the key lines, read declaratively *)

(** The text up to the end of its first line. *)
Definition line_head (s : str) : str := firstn (run is_dot s) s.

(** The text is empty or starts with a character outside the class [c]. *)
Definition stops (c : ascii -> bool) (s : str) : Prop :=
  match s with
  | [] => True
  | x :: _ => c x = false
  end.

(** ** More sample files *)

(** The tag and the body of the first method block, as the search finds
    them. *)
Definition first_method_block (text : str) : option (str * str) :=
  option_map (fun m => (group m 1, group m 2)) (re_search true method_re text).

(** A request whose [name:] has nothing after it on its line. *)
Definition blank_name_request : str :=
  "meta {" ++ [nl] ++ "name:" ++ [nl] ++ "seq: 4" ++ [nl] ++ "}" ++ [nl]
  ++ "get { }".

(** A request whose seq has leading zeros and a letter after the digits. *)
Definition seq_padded_request : str :=
  "meta { seq: 007x }" ++ [nl] ++ "get { }".

(** A request whose url has spaces around it. *)
Definition url_value_request : str :=
  "meta { name: U }" ++ [nl]
  ++ "get {" ++ [nl] ++ "url:   /foo  " ++ [nl] ++ "body: none" ++ [nl] ++ "}".

(** A request with a body of subtype [JSON], in upper case. *)
Definition upper_json_body_request : str :=
  "meta { name: X }" ++ [nl] ++ "get { }" ++ [nl]
  ++ "body:JSON {" ++ [nl]
  ++ "  {" ++ [dquote] ++ "a" ++ [dquote] ++ ": 1}" ++ [nl] ++ "}".

(** A folder descriptor. *)
Definition users_folder_bru : str := "meta {" ++ [nl] ++ "  name: Users" ++ [nl] ++ "}".

(** A collection: a folder with a request and a [node_modules] directory
    below it, a [.git] directory and a directory the collection ignores. *)
Definition sample_collection : tree :=
  Dir "api" []
    [Dir "users"
       [("get.bru" : str, Some minimal_request_url_line);
        ("folder.bru" : str, Some users_folder_bru)]
       [Dir "node_modules"
          [("x.bru" : str, Some minimal_request_url_line)] []];
     Dir ".git" [("y.bru" : str, Some minimal_request_url_line)] [];
     Dir "drafts" [("z.bru" : str, Some minimal_request_url_line)] []].

(** Shows that an occurrence is the first one: shorter prefixes are
    refuted one at a time. *)
Ltac first_occurrence E pre' :=
  repeat (destruct pre' as [|? pre']; [vm_compute in E; discriminate|]);
  simpl; lia.

(** ** The engine against the declarative reading *)

Lemma first_some_None {A B} (f : A -> option B) (l : list A) :
  first_some f l = None <-> (forall x, In x l -> f x = None).
Proof.
  induction l as [|x l IH]; simpl.
  - split; [intros _ x []|reflexivity].
  - destruct (f x) eqn:E.
    + split; [discriminate|].
      intros H. rewrite (H x) in E by auto. discriminate.
    + rewrite IH. split.
      * intros H y [<-|Hy]; auto.
      * intros H y Hy. apply H. auto.
Qed.

Lemma first_some_Some {A B} (f : A -> option B) (l : list A) (y : B) :
  first_some f l = Some y ->
  exists l1 x l2,
    l = l1 ++ x :: l2 /\ f x = Some y /\ (forall z, In z l1 -> f z = None).
Proof.
  induction l as [|x l IH]; simpl; [discriminate|].
  destruct (f x) eqn:E.
  - intros [= <-]. exists [], x, l. repeat split; auto. intros z [].
  - intros H. destruct (IH H) as (l1 & x' & l2 & -> & Hx & Hl1).
    exists (x :: l1), x', l2. repeat split; auto.
    intros z [<-|Hz]; auto.
Qed.

Lemma first_some_In {A B} (f : A -> option B) (l : list A) (y : B) :
  first_some f l = Some y -> exists x, In x l /\ f x = Some y.
Proof.
  intros H. destruct (first_some_Some _ _ _ H) as (l1 & x & l2 & -> & Hx & _).
  exists x. split; [apply in_elt|assumption].
Qed.

Lemma lit_split_sound ic l s w r :
  lit_split ic l s = Some (w, r) -> lit_eq ic l w /\ s = w ++ r.
Proof.
  revert s w r. induction l as [|a l IH]; intros s w r; simpl.
  - intros [= <- <-]. split; [constructor|reflexivity].
  - destruct s as [|c s]; [discriminate|].
    destruct (char_eq ic a c) eqn:E; [|discriminate].
    destruct (lit_split ic l s) as [[w' r']|] eqn:E'; [|discriminate].
    intros [= <- <-]. destruct (IH _ _ _ E') as [H1 ->].
    split; [constructor; assumption|reflexivity].
Qed.

Lemma lit_split_complete ic l w r :
  lit_eq ic l w -> lit_split ic l (w ++ r) = Some (w, r).
Proof.
  intros H. induction H as [|a c l w Hac _ IH]; simpl; [reflexivity|].
  rewrite Hac, IH. reflexivity.
Qed.

Lemma lit_eq_length ic l w : lit_eq ic l w -> List.length w = List.length l.
Proof. intros H. symmetry. exact (Forall2_length H). Qed.

Lemma lit_eq_exact l w : lit_eq false l w -> w = l.
Proof.
  intros H. induction H as [|a c l w Hac _ IH]; [reflexivity|].
  simpl in Hac. apply Ascii.eqb_eq in Hac. congruence.
Qed.

Lemma lit_eq_refl l : lit_eq false l l.
Proof.
  induction l; constructor; auto. simpl. apply Ascii.eqb_refl.
Qed.

Lemma run_firstn c s k : k <= run c s -> forallb c (firstn k s) = true.
Proof.
  revert k. induction s as [|x s IH]; intros k; simpl.
  - destruct k; reflexivity.
  - destruct k; [reflexivity|]. simpl.
    destruct (c x); [|lia]. intros H. apply IH. lia.
Qed.

Lemma run_prefix c w r : forallb c w = true -> List.length w <= run c (w ++ r).
Proof.
  induction w as [|x w IH]; simpl; [lia|].
  intros H. apply andb_prop in H as [-> H]. specialize (IH H). lia.
Qed.

Lemma run_length c s : run c s <= List.length s.
Proof.
  induction s as [|x s IH]; simpl; [lia|]. destruct (c x); simpl; lia.
Qed.

Lemma in_rep_counts lo n greedy k :
  In k (rep_counts lo n greedy) <-> lo <= k <= n.
Proof.
  unfold rep_counts. destruct greedy.
  - rewrite <- in_rev, in_seq. lia.
  - rewrite in_seq. lia.
Qed.

Lemma app_eq_length_inj {A} (w w' r r' : list A) :
  List.length w = List.length w' -> w ++ r = w' ++ r' -> w = w' /\ r = r'.
Proof.
  revert w'. induction w as [|x w IH]; intros [|x' w']; simpl;
    try discriminate; auto.
  intros [= Hl] [= -> H]. destruct (IH _ Hl H) as [-> ->]. auto.
Qed.

Lemma atom_splits_spec ic a prev s w r :
  In (w, r) (atom_splits ic a prev s) <-> atom_sem ic a prev s w r.
Proof.
  induction a as [l|alts|c lo greedy| | |a IH]; simpl.
  - destruct (lit_split ic l s) as [[w' r']|] eqn:E; simpl.
    + apply lit_split_sound in E as [H1 H2]. split.
      * intros [[= <- <-]|[]]. auto.
      * intros [H3 H4]. left. subst s.
        pose proof (lit_eq_length _ _ _ H1).
        pose proof (lit_eq_length _ _ _ H3).
        assert (w = w' /\ r = r') as [-> ->]; [|reflexivity].
        apply app_eq_length_inj; [lia|auto].
    + split; [intros []|]. intros [H1 ->].
      rewrite (lit_split_complete _ _ _ _ H1) in E. discriminate.
  - rewrite in_flat_map. split.
    + intros (l & Hl & H). exists l. split; [assumption|].
      destruct (lit_split ic l s) as [[w' r']|] eqn:E; simpl in H;
        [|contradiction].
      destruct H as [[= <- <-]|[]]. apply lit_split_sound. assumption.
    + intros (l & Hl & H1 & ->). exists l. split; [assumption|].
      rewrite (lit_split_complete _ _ _ _ H1). left. reflexivity.
  - rewrite in_map_iff. split.
    + intros (k & [= <- <-] & Hk). apply in_rep_counts in Hk.
      pose proof (run_length c s).
      repeat split.
      * symmetry. apply firstn_skipn.
      * apply run_firstn. lia.
      * rewrite length_firstn. lia.
    + intros (-> & Hc & Hlo). exists (List.length w). split.
      * rewrite firstn_app, Nat.sub_diag, firstn_all, skipn_app, Nat.sub_diag,
          skipn_all. simpl. rewrite app_nil_r. reflexivity.
      * apply in_rep_counts. split; [assumption|]. apply run_prefix, Hc.
  - destruct prev as [c|].
    + destruct (Ascii.eqb c nl) eqn:E; simpl.
      * apply Ascii.eqb_eq in E. subst c. split.
        -- intros [[= <- <-]|[]]. auto.
        -- intros (-> & -> & _). auto.
      * split; [intros []|]. intros (_ & _ & [H|H]); [discriminate|].
        injection H as ->. rewrite Ascii.eqb_refl in E. discriminate.
    + simpl. split.
      * intros [[= <- <-]|[]]. auto.
      * intros (-> & -> & _). auto.
  - destruct s as [|c s]; simpl.
    + split.
      * intros [[= <- <-]|[]]. auto.
      * intros (-> & -> & _). auto.
    + destruct (Ascii.eqb c nl) eqn:E; simpl.
      * apply Ascii.eqb_eq in E. subst c. split.
        -- intros [[= <- <-]|[]]. repeat split. right. eauto.
        -- intros (-> & -> & _). auto.
      * split; [intros []|]. intros (_ & _ & [H|[s' H]]); [discriminate|].
        injection H as -> _. rewrite Ascii.eqb_refl in E. discriminate.
  - exact IH.
Qed.

Lemma match_here_sound ic p : forall prev s caps rest,
  match_here ic p prev s = Some (caps, rest) -> matches ic p prev s caps rest.
Proof.
  induction p as [|a p IH]; intros prev s caps rest; simpl.
  - intros [= <- <-]. auto.
  - intros H. apply first_some_In in H as ([w r] & Hin & H). simpl in H.
    destruct (match_here ic p (last_char prev w) r) as [[caps' rest']|] eqn:E;
      [|discriminate].
    injection H as <- <-. exists w, r, caps'.
    repeat split; [apply atom_splits_spec; assumption|apply IH; assumption].
Qed.

Lemma match_here_complete ic p : forall prev s caps rest,
  matches ic p prev s caps rest -> match_here ic p prev s <> None.
Proof.
  induction p as [|a p IH]; intros prev s caps rest; simpl.
  - discriminate.
  - intros (w & r & caps' & Ha & Hm & _) H.
    rewrite first_some_None in H.
    apply atom_splits_spec in Ha. specialize (H _ Ha). simpl in H.
    apply IH in Hm.
    destruct (match_here ic p (last_char prev w) r) as [[? ?]|];
      [discriminate|contradiction].
Qed.

(** Whatever a pattern matches is a prefix of the text. *)
Lemma matches_prefix ic p : forall prev s caps rest,
  matches ic p prev s caps rest -> exists mid, s = mid ++ rest.
Proof.
  induction p as [|a p IH]; intros prev s caps rest; simpl.
  - intros [_ ->]. exists []. reflexivity.
  - intros (w & r & caps' & Ha & Hm & _).
    destruct (IH _ _ _ _ Hm) as [mid ->].
    assert (s = w ++ mid ++ rest) as ->.
    { clear -Ha. revert Ha. generalize (mid ++ rest). intros r.
      induction a; simpl; try tauto.
      - intros (l & _ & _ & H). exact H.
      - intros (-> & -> & _). reflexivity.
      - intros (-> & -> & _). reflexivity. }
    exists (w ++ mid). rewrite app_assoc. reflexivity.
Qed.

Lemma last_char_app prev a b :
  last_char prev (a ++ b) = last_char (last_char prev a) b.
Proof. unfold last_char. apply fold_left_app. Qed.

Lemma firstn_app_sub {A} (mid rest : list A) :
  firstn (List.length (mid ++ rest) - List.length rest) (mid ++ rest) = mid.
Proof.
  rewrite length_app, Nat.add_sub, firstn_app, Nat.sub_diag, firstn_all.
  simpl. apply app_nil_r.
Qed.

Lemma search_from_eq ic p prev s :
  search_from ic p prev s =
  match match_here ic p prev s with
  | Some (caps, rest) =>
      Some (firstn (List.length s - List.length rest) s :: caps)
  | None =>
      match s with
      | [] => None
      | c :: s' => search_from ic p (Some c) s'
      end
  end.
Proof. destruct s; reflexivity. Qed.

(** [re.search] returns the match at the first position that has one. *)
Lemma search_from_Some ic p : forall s prev m,
  search_from ic p prev s = Some m ->
  exists pre mid rest caps,
    s = pre ++ mid ++ rest /\ m = mid :: caps
    /\ match_here ic p (last_char prev pre) (mid ++ rest) = Some (caps, rest)
    /\ (forall pre' suf',
          s = pre' ++ suf' -> List.length pre' < List.length pre ->
          match_here ic p (last_char prev pre') suf' = None).
Proof.
  assert (Hhere : forall s prev caps rest,
             match_here ic p prev s = Some (caps, rest) ->
             exists mid, s = mid ++ rest
               /\ firstn (List.length s - List.length rest) s = mid).
  { intros s prev caps rest E.
    destruct (matches_prefix _ _ _ _ _ _ (match_here_sound _ _ _ _ _ _ E))
      as [mid ->].
    exists mid. split; [reflexivity|apply firstn_app_sub]. }
  induction s as [|c s IH]; intros prev m; rewrite search_from_eq.
  - destruct (match_here ic p prev []) as [[caps rest]|] eqn:E; [|discriminate].
    intros [= <-]. destruct (Hhere _ _ _ _ E) as (mid & Hs & Hf).
    exists [], mid, rest, caps. simpl. rewrite <- Hs.
    repeat split; auto; [f_equal; exact Hf|].
    intros pre' suf' _ H. simpl in H. lia.
  - destruct (match_here ic p prev (c :: s)) as [[caps rest]|] eqn:E.
    + intros [= <-]. destruct (Hhere _ _ _ _ E) as (mid & Hs & Hf).
      exists [], mid, rest, caps. simpl app. rewrite <- Hs.
      repeat split; auto; [f_equal; exact Hf|].
      intros pre' suf' _ H. simpl in H. lia.
    + intros H.
      destruct (IH _ _ H) as (pre & mid & rest & caps & -> & -> & Hm & Hleft).
      exists (c :: pre), mid, rest, caps. repeat split; auto.
      intros [|c' pre'] suf'; simpl.
      * intros <- _. exact E.
      * intros [= <- H1] H2. apply Hleft; [assumption|lia].
Qed.

Lemma search_from_None ic p : forall s prev,
  search_from ic p prev s = None <->
  (forall pre suf, s = pre ++ suf ->
                   match_here ic p (last_char prev pre) suf = None).
Proof.
  induction s as [|c s IH]; intros prev; rewrite search_from_eq.
  - destruct (match_here ic p prev []) as [[caps rest]|] eqn:E.
    + split; [discriminate|]. intros H.
      pose proof (H [] [] eq_refl) as H'. simpl in H'. congruence.
    + split; [|reflexivity]. intros _ pre suf H. symmetry in H.
      apply app_eq_nil in H as [-> ->]. exact E.
  - destruct (match_here ic p prev (c :: s)) as [[caps rest]|] eqn:E.
    + split; [discriminate|]. intros H.
      pose proof (H [] (c :: s) eq_refl) as H'. simpl in H'. congruence.
    + rewrite IH. split.
      * intros H [|c' pre] suf; simpl.
        -- intros <-. exact E.
        -- intros [= <- H1]. apply H. assumption.
      * intros H pre suf ->. apply (H (c :: pre) suf). reflexivity.
Qed.

(** Declarative existence of a match somewhere in the text. *)
Lemma re_search_None ic p s :
  re_search ic p s = None <->
  (forall pre suf caps rest,
      s = pre ++ suf -> ~ matches ic p (last_char None pre) suf caps rest).
Proof.
  unfold re_search. rewrite search_from_None. split.
  - intros H pre suf caps rest Hs Hm.
    apply match_here_complete in Hm. apply Hm, H, Hs.
  - intros H pre suf Hs.
    destruct (match_here ic p (last_char None pre) suf) as [[caps rest]|] eqn:E;
      [|reflexivity].
    apply match_here_sound in E. exfalso. exact (H _ _ _ _ Hs E).
Qed.

(** The order in which a quantifier tries its repetition counts. *)
Lemma first_some_seq {B} (f : nat -> option B) (y : B) : forall n a,
  first_some f (List.seq a n) = Some y ->
  exists k, a <= k < a + n /\ f k = Some y
            /\ (forall j, a <= j < k -> f j = None).
Proof.
  induction n as [|n IH]; intros a; simpl; [discriminate|].
  destruct (f a) eqn:E.
  - intros [= <-]. exists a. repeat split; try lia. assumption.
  - intros H. destruct (IH _ H) as (k & Hk & Hf & Hj).
    exists k. repeat split; try lia; [assumption|].
    intros j Hj'. destruct (Nat.eq_dec j a) as [->|]; [assumption|].
    apply Hj. lia.
Qed.

Lemma first_some_rev_seq {B} (f : nat -> option B) (y : B) : forall n a,
  first_some f (rev (List.seq a n)) = Some y ->
  exists k, a <= k < a + n /\ f k = Some y
            /\ (forall j, k < j < a + n -> f j = None).
Proof.
  induction n as [|n IH]; intros a; [discriminate|].
  rewrite seq_S, rev_app_distr. simpl.
  destruct (f (a + n)) eqn:E.
  - intros [= <-]. exists (a + n). repeat split; try lia. assumption.
  - intros H. destruct (IH _ H) as (k & Hk & Hf & Hj).
    exists k. repeat split; try lia; [assumption|].
    intros j Hj'. destruct (Nat.eq_dec j (a + n)) as [->|]; [assumption|].
    apply Hj. lia.
Qed.

Lemma first_some_map {A B C} (g : A -> B) (f : B -> option C) (l : list A) :
  first_some f (map g l) = first_some (fun x => f (g x)) l.
Proof.
  induction l as [|x l IH]; simpl; [reflexivity|]. rewrite IH. reflexivity.
Qed.

(** One step of the engine, read operationally. *)
Lemma match_here_cons ic a p prev s caps rest :
  match_here ic (a :: p) prev s = Some (caps, rest) ->
  exists w r caps',
    In (w, r) (atom_splits ic a prev s)
    /\ match_here ic p (last_char prev w) r = Some (caps', rest)
    /\ caps = (if captures a then w :: caps' else caps').
Proof.
  simpl. intros H. apply first_some_In in H as ([w r] & Hin & H). simpl in H.
  destruct (match_here ic p (last_char prev w) r) as [[caps' rest']|] eqn:E;
    [|discriminate].
  injection H as <- <-. exists w, r, caps'. auto.
Qed.

(** ** Checking a property of every character *)

Lemma in_all_ascii c : In c all_ascii.
Proof.
  unfold all_ascii. rewrite <- (ascii_nat_embedding c).
  apply in_map, in_seq. pose proof (nat_ascii_bounded c). lia.
Qed.

Lemma forall_ascii (P : ascii -> bool) :
  forallb P all_ascii = true -> forall c, P c = true.
Proof.
  intros H c. rewrite forallb_forall in H. apply H, in_all_ascii.
Qed.

Lemma char_eq_rbrace ic c : char_eq ic rbrace c = true -> c = rbrace.
Proof.
  revert c.
  assert (H : forall c,
             implb (char_eq ic rbrace c) (Ascii.eqb c rbrace) = true).
  { apply forall_ascii. destruct ic; vm_compute; reflexivity. }
  intros c Hc. specialize (H c). rewrite Hc in H. apply Ascii.eqb_eq, H.
Qed.

Lemma char_eq_lbrace ic c : char_eq ic lbrace c = true -> c = lbrace.
Proof.
  revert c.
  assert (H : forall c,
             implb (char_eq ic lbrace c) (Ascii.eqb c lbrace) = true).
  { apply forall_ascii. destruct ic; vm_compute; reflexivity. }
  intros c Hc. specialize (H c). rewrite Hc in H. apply Ascii.eqb_eq, H.
Qed.

Lemma char_eq_refl ic c : char_eq ic c c = true.
Proof. destruct ic; simpl; apply Ascii.eqb_refl. Qed.

Lemma lit_eq_single ic a w :
  (forall c, char_eq ic a c = true -> c = a) -> lit_eq ic [a] w -> w = [a].
Proof.
  intros Ha H. inversion H as [|? c ? w' Hc Hw]; subst.
  inversion Hw; subst. rewrite (Ha _ Hc). reflexivity.
Qed.

Lemma is_any_true c : is_any c = true.
Proof. unfold is_any. apply orb_negb_r. Qed.

Lemma forallb_is_any s : forallb is_any s = true.
Proof. apply forallb_forall. intros c _. apply is_any_true. Qed.

Lemma in_firstn_skipn {A} (x : A) : forall k s,
  In x (firstn k s) -> exists j tl, j < k /\ skipn j s = x :: tl.
Proof.
  induction k as [|k IH]; intros [|y s]; simpl; try contradiction.
  intros [->|H].
  - exists 0, s. split; [lia|reflexivity].
  - destruct (IH _ H) as (j & tl & Hj & E).
    exists (S j), tl. split; [lia|exact E].
Qed.

(** A lazy [[\s\S]*?] followed by the closing brace stops at the first
    closing brace: the captured text has none. *)
Lemma lazy_until_rbrace ic prev s caps rest :
  match_here ic [Cap (Rep is_any 0 false); Lit [rbrace]] prev s
  = Some (caps, rest) ->
  exists inner,
    s = inner ++ rbrace :: rest /\ caps = [inner] /\ ~ In rbrace inner.
Proof.
  cbn [match_here atom_splits rep_counts captures].
  rewrite first_some_map. intros H.
  apply first_some_seq in H as (k & Hk & Hf & Hmin).
  cbn [fst snd] in Hf.
  destruct (first_some _ (opt_list (lit_split ic [rbrace] (skipn k s))))
    as [[caps' rest']|] eqn:E; [|discriminate].
  injection Hf as <- <-.
  destruct (lit_split ic [rbrace] (skipn k s)) as [[w r]|] eqn:El;
    [|discriminate].
  simpl in E. injection E as <- <-.
  apply lit_split_sound in El as [Hw Hs].
  apply lit_eq_single in Hw; [|apply char_eq_rbrace]. subst w.
  exists (firstn k s). repeat split.
  - rewrite <- (firstn_skipn k s) at 1. rewrite Hs. reflexivity.
  - intros Hin. apply in_firstn_skipn in Hin as (j & tl & Hj & Etl).
    specialize (Hmin j (conj (Nat.le_0_l j) Hj)). cbn [fst snd] in Hmin.
    rewrite Etl in Hmin. simpl in Hmin.
    rewrite char_eq_refl in Hmin. discriminate.
Qed.

(** The tail of a block pattern: optional white space, an opening brace,
    the body up to the first closing brace. *)
Lemma match_block_tail ic prev s caps rest :
  match_here ic block_tail prev s = Some (caps, rest) ->
  exists ws inner,
    s = ws ++ lbrace :: inner ++ rbrace :: rest
    /\ forallb is_space ws = true
    /\ caps = [inner] /\ ~ In rbrace inner.
Proof.
  unfold block_tail. intros H.
  apply match_here_cons in H as (ws & r & caps1 & Hws & H & ->).
  apply atom_splits_spec in Hws as (-> & Hws & _).
  apply match_here_cons in H as (w & r2 & caps2 & Hw & H & ->).
  apply atom_splits_spec in Hw as (Hw & ->).
  apply lit_eq_single in Hw; [|apply char_eq_lbrace]. subst w.
  apply lazy_until_rbrace in H as (inner & -> & -> & Hin).
  exists ws, inner. simpl. auto.
Qed.

Lemma matches_block_tail ic prev ws inner rest :
  forallb is_space ws = true ->
  matches ic block_tail prev (ws ++ lbrace :: inner ++ rbrace :: rest)
    [inner] rest.
Proof.
  intros Hws. unfold block_tail. simpl.
  exists ws, (lbrace :: inner ++ rbrace :: rest), [inner].
  repeat split; auto; [lia|].
  exists [lbrace], (inner ++ rbrace :: rest), [inner].
  repeat split; auto.
  { constructor; [apply char_eq_refl|constructor]. }
  exists inner, (rbrace :: rest), [].
  repeat split; auto; [apply forallb_is_any|lia|].
  exists [rbrace], rest, [].
  repeat split; auto.
  constructor; [apply char_eq_refl|constructor].
Qed.

Lemma matches_block_tail_inv ic prev s caps rest :
  matches ic block_tail prev s caps rest ->
  exists ws inner,
    s = ws ++ lbrace :: inner ++ rbrace :: rest
    /\ forallb is_space ws = true /\ caps = [inner].
Proof.
  unfold block_tail. cbn [matches atom_sem captures].
  intros (ws & r1 & caps1 & (-> & Hws & _) & H & ->).
  destruct H as (w & r2 & caps2 & (Hw & ->) & H & ->).
  apply lit_eq_single in Hw; [|apply char_eq_lbrace]. subst w.
  destruct H as (inner & r3 & caps3 & (-> & _ & _) & H & ->).
  destruct H as (w & r4 & caps4 & (Hw & ->) & [-> ->] & ->).
  apply lit_eq_single in Hw; [|apply char_eq_rbrace]. subst w.
  exists ws, inner. auto.
Qed.

Section BlockSearch.

(** A tag atom: a literal or a group of alternatives, standing for the tags
    [tags]. *)
Variable ic : bool.
Variable a : atom.
Variable tags : list str.
Hypothesis tag_sem : forall prev s w r,
  atom_sem ic a prev s w r
  <-> ((exists t, In t tags /\ lit_eq ic t w) /\ s = w ++ r).

Lemma block_at_matches text pre tag ws inner post prev :
  block_at ic tags text pre tag ws inner post ->
  exists caps,
    matches ic (a :: block_tail) prev
      (tag ++ ws ++ lbrace :: inner ++ rbrace :: post) caps post.
Proof.
  intros (_ & Htag & Hws).
  exists (if captures a then tag :: [inner] else [inner]).
  cbn [matches]. exists tag, (ws ++ lbrace :: inner ++ rbrace :: post), [inner].
  repeat split.
  - apply tag_sem. auto.
  - apply matches_block_tail, Hws.
Qed.

Lemma search_block_None text :
  re_search ic (a :: block_tail) text = None <-> ~ has_block ic tags text.
Proof.
  rewrite re_search_None. split.
  - intros H (pre & tag & ws & inner & post & Hb).
    destruct (block_at_matches _ _ _ _ _ _ (last_char None pre) Hb)
      as [caps Hm].
    destruct Hb as (Ht & _). exact (H _ _ _ _ Ht Hm).
  - intros H pre suf caps rest -> Hm. apply H.
    cbn [matches] in Hm. destruct Hm as (tag & r & caps' & Ha & Hm & _).
    apply tag_sem in Ha as [Htag ->].
    apply matches_block_tail_inv in Hm as (ws & inner & -> & Hws & _).
    exists pre, tag, ws, inner, rest. repeat split; auto.
Qed.

Lemma search_block_Some text m :
  re_search ic (a :: block_tail) text = Some m ->
  exists whole tag inner,
    m = whole :: (if captures a then [tag; inner] else [inner])
    /\ first_block ic tags text tag inner.
Proof.
  unfold re_search. intros H.
  apply search_from_Some in H
    as (pre & mid & rest & caps & -> & -> & Hm & Hleft).
  apply match_here_cons in Hm as (tag & r & caps' & Ha & Hm & ->).
  apply atom_splits_spec, tag_sem in Ha as [Htag Hr].
  apply match_block_tail in Hm as (ws & inner & -> & Hws & -> & Hin).
  exists mid, tag, inner. split; [reflexivity|].
  exists pre, ws, rest. rewrite Hr. repeat split; auto.
  intros pre' tag' ws' inner' post' Hb.
  destruct (Nat.lt_ge_cases (List.length pre') (List.length pre)) as [Hlt|];
    [exfalso|assumption].
  destruct (block_at_matches _ _ _ _ _ _ (last_char None pre') Hb)
    as [caps Hmatch].
  apply match_here_complete in Hmatch. apply Hmatch.
  destruct Hb as (Ht & _). rewrite Hr in Hleft. exact (Hleft _ _ Ht Hlt).
Qed.

End BlockSearch.

Lemma tag_sem_lit l prev s w r :
  atom_sem false (Lit l) prev s w r
  <-> ((exists t, In t [l] /\ lit_eq false t w) /\ s = w ++ r).
Proof.
  simpl. split.
  - intros [H ->]. split; [exists l|]; auto.
  - intros [(t & [<-|[]] & H) ->]. auto.
Qed.

Lemma tag_sem_alt ic alts prev s w r :
  atom_sem ic (Cap (Alt alts)) prev s w r
  <-> ((exists t, In t alts /\ lit_eq ic t w) /\ s = w ++ r).
Proof.
  simpl. split.
  - intros (l & Hl & H & ->). split; [exists l|]; auto.
  - intros [(t & Ht & H) ->]. exists t. auto.
Qed.

(** ** The body: the embedded JSON object is never found *)

Lemma lstrip_incl s x : In x (lstrip s) -> In x s.
Proof.
  induction s as [|c s IH]; simpl; [auto|].
  destruct (is_space c); simpl; auto.
Qed.

Lemma strip_incl s x : In x (strip s) -> In x s.
Proof.
  unfold strip, rstrip. intros H.
  apply <- in_rev in H. apply lstrip_incl in H. apply <- in_rev in H.
  apply lstrip_incl, H.
Qed.

Lemma json_body_search_None s :
  ~ In rbrace s -> re_search false json_body_re s = None.
Proof.
  intros Hs. apply re_search_None. intros pre suf caps rest -> Hm.
  unfold json_body_re in Hm. cbn [matches atom_sem captures] in Hm.
  destruct Hm as (w1 & r1 & c1 & (_ & ->) & Hm & _).
  destruct Hm as (w2 & r2 & c2 & (-> & _) & Hm & _).
  destruct Hm as (w3 & r3 & c3 & (Hw & ->) & _).
  apply lit_eq_exact in Hw. subst w3.
  apply Hs. rewrite !in_app_iff. right. right. right. left.
  left. reflexivity.
Qed.

Lemma body_search_Some content m :
  re_search false body_re content = Some m ->
  exists whole ty inner,
    m = [whole; ty; inner] /\ ~ In rbrace inner
    /\ forallb is_word ty = true /\ ty <> [].
Proof.
  unfold re_search. intros H.
  apply search_from_Some in H as (pre & mid & rest & caps & -> & -> & Hm & _).
  unfold body_re in Hm.
  apply match_here_cons in Hm as (w & r & caps1 & _ & Hm & ->).
  apply match_here_cons in Hm as (ty & r2 & caps2 & Hty & Hm & ->).
  apply atom_splits_spec in Hty as (_ & Hty & Hlen).
  apply match_block_tail in Hm as (ws & inner & _ & _ & -> & Hin).
  exists mid, ty, inner. repeat split; auto.
  intros ->. simpl in Hlen. lia.
Qed.

Lemma str_eqb_eq a b : str_eqb a b = true <-> a = b.
Proof.
  unfold str_eqb. destruct (list_eq_dec ascii_dec a b); split;
    congruence.
Qed.

Section ExtractorFacts.

Variable J : Type.
Variable json_loads : str -> loads_result J.
Variable json_dumps_indent2 : J -> str.

Local Abbreviation body_part := (parse_body J json_loads json_dumps_indent2).
Local Abbreviation parse := (parse_bru_file J json_loads json_dumps_indent2).

(** [json.loads] is never reached: the body of the block stops at its first
    closing brace, so the search for an object in braces finds none. *)
Lemma parse_body_eq content : body_part content = Some (body_of content).
Proof.
  unfold parse_body, body_of.
  destruct (re_search false body_re content) as [m|] eqn:E; [|reflexivity].
  destruct (body_search_Some _ _ E) as (whole & ty & inner & -> & Hin & _).
  unfold group. cbn [nth].
  destruct (str_eqb (lower ty) "json"); [|reflexivity].
  rewrite json_body_search_None; [reflexivity|].
  intros H. apply Hin, (strip_incl _ _ H).
Qed.

Lemma parse_bru_file_eq content :
  parse content =
  match re_search false meta_re content with
  | None => None
  | Some meta_match =>
      match re_search true method_re content with
      | None => None
      | Some method_match =>
          Some {|
            name := match re_search false name_re (group meta_match 1) with
                    | Some m => strip (group m 1)
                    | None => "Unnamed Request"
                    end;
            seq := match re_search false seq_re (group meta_match 1) with
                   | Some m => int_of_digits (group m 1)
                   | None => 999%Z
                   end;
            method := upper (group method_match 1);
            url := match re_search false url_re (group method_match 2) with
                   | Some m => strip (group m 1)
                   | None => "No URL found"
                   end;
            path_params := parse_params_block "params:path" content;
            query_params := parse_params_block "params:query" content;
            headers := parse_params_block "headers" content;
            body := body_of content
          |}
      end
  end.
Proof.
  unfold parse_bru_file. rewrite parse_body_eq. reflexivity.
Qed.

End ExtractorFacts.

(** ** The tag of a method block and its upper case *)

Lemma char_eq_upper a c :
  char_eq true a c = true -> upper_char c = upper_char a.
Proof.
  assert (H : forall a,
             forallb (fun c => implb (char_eq true a c)
                                 (Ascii.eqb (upper_char c) (upper_char a)))
               all_ascii = true).
  { apply forall_ascii. vm_compute. reflexivity. }
  intros Hc. specialize (H a). rewrite forallb_forall in H.
  specialize (H c (in_all_ascii c)). rewrite Hc in H.
  apply Ascii.eqb_eq, H.
Qed.

Lemma lit_eq_upper t w : lit_eq true t w -> upper w = upper t.
Proof.
  intros H. induction H as [|a c l w Hac _ IH]; [reflexivity|].
  simpl. rewrite (char_eq_upper _ _ Hac). f_equal. exact IH.
Qed.

(** ** Uniqueness of the first block with a given tag *)

Lemma split_unique {A} (Q : A -> Prop) : forall (a a' : list A) x x' b b',
  a ++ x :: b = a' ++ x' :: b' ->
  (forall y, In y a -> Q y) -> ~ Q x' ->
  (forall y, In y a' -> Q y) -> ~ Q x ->
  a = a' /\ x = x' /\ b = b'.
Proof.
  induction a as [|y a IH]; intros [|y' a'] x x' b b'; simpl.
  - intros [= -> ->]. auto.
  - intros [= -> _] _ _ H Hx. exfalso. apply Hx, H. auto.
  - intros [= -> _] H Hx. exfalso. apply Hx, H. auto.
  - intros [= -> E] H1 H2 H3 H4.
    destruct (IH a' x x' b b' E) as (-> & -> & ->); auto.
Qed.

Lemma forallb_space_In ws y : forallb is_space ws = true -> In y ws ->
  is_space y = true.
Proof. intros H. rewrite forallb_forall in H. apply H. Qed.

Lemma first_block_unique l text tag1 inner1 tag2 inner2 :
  first_block false [l] text tag1 inner1 ->
  first_block false [l] text tag2 inner2 ->
  tag1 = tag2 /\ inner1 = inner2.
Proof.
  intros (pre1 & ws1 & post1 & B1 & N1 & L1) (pre2 & ws2 & post2 & B2 & N2 & L2).
  pose proof (L1 _ _ _ _ _ B2) as H12. pose proof (L2 _ _ _ _ _ B1) as H21.
  destruct B1 as (E1 & (t1 & [<-|[]] & T1) & W1).
  destruct B2 as (E2 & (t2 & [<-|[]] & T2) & W2).
  apply lit_eq_exact in T1, T2. subst tag1 tag2. split; [reflexivity|].
  rewrite E1 in E2.
  apply app_eq_length_inj in E2 as [_ E2]; [|lia].
  apply app_inv_head in E2.
  apply (split_unique (fun y => is_space y = true)) in E2
    as (_ & _ & E2).
  - apply (split_unique (fun y => y <> rbrace)) in E2 as (E2 & _); auto.
    + intros y Hy ->. contradiction.
    + intros y Hy ->. contradiction.
  - intros y. apply forallb_space_In, W1.
  - vm_compute. discriminate.
  - intros y. apply forallb_space_In, W2.
  - vm_compute. discriminate.
Qed.

(** ** The key lines: [name:], [seq:] and [url:] *)

Lemma name_search_None s :
  re_search false name_re s = None <-> ~ name_occurrence s.
Proof.
  rewrite re_search_None. split.
  - intros H (pre & post & E). apply (H pre _ [[]] post E).
    unfold name_re. cbn [matches atom_sem captures].
    exists ("name:" : str), post, [[]].
    repeat split; [apply lit_eq_refl|].
    exists [], post, [[]]. repeat split; [lia|].
    exists [], post, []. repeat split. lia.
  - intros H pre suf caps rest -> Hm. apply H.
    unfold name_re in Hm. cbn [matches atom_sem] in Hm.
    destruct Hm as (w & r & _ & (Hw & ->) & _).
    apply lit_eq_exact in Hw. subst w. exists pre, r. reflexivity.
Qed.

Lemma seq_search_None s :
  re_search false seq_re s = None <-> ~ seq_occurrence s.
Proof.
  rewrite re_search_None. split.
  - intros H (pre & ws & d & post & E & Hws & Hd).
    apply (H pre _ [[d]] post E).
    unfold seq_re. cbn [matches atom_sem captures].
    exists ("seq:" : str), (ws ++ d :: post), [[d]].
    repeat split; [apply lit_eq_refl|].
    exists ws, (d :: post), [[d]]. repeat split; [assumption|lia|].
    exists [d], post, []. simpl. rewrite Hd. repeat split. lia.
  - intros H pre suf caps rest -> Hm. apply H.
    unfold seq_re in Hm. cbn [matches atom_sem] in Hm.
    destruct Hm as (w & r & c1 & (Hw & E1) & Hm1 & _). subst suf.
    apply lit_eq_exact in Hw. subst w.
    destruct Hm1 as (ws & r2 & c2 & (E2 & Hws & _) & Hm2 & _). subst r.
    destruct Hm2 as (ds & r3 & c3 & (E3 & Hds & Hlen) & _). subst r2.
    destruct ds as [|d ds]; [simpl in Hlen; lia|].
    simpl in Hds. apply andb_prop in Hds as [Hd _].
    exists pre, ws, d, (ds ++ r3). auto.
Qed.

Lemma last_char_snoc prev pre c : last_char prev (pre ++ [c]) = Some c.
Proof. rewrite last_char_app. reflexivity. Qed.

Lemma last_char_line_start pre :
  last_char None pre = None \/ last_char None pre = Some nl ->
  at_line_start pre.
Proof.
  destruct pre as [|c pre] using rev_ind.
  - left. reflexivity.
  - rewrite last_char_snoc. intros [H|[= ->]]; [discriminate|].
    right. exists pre. reflexivity.
Qed.




Lemma first_block_has ic tags text tag inner :
  first_block ic tags text tag inner -> has_block ic tags text.
Proof.
  intros (pre & ws & post & Hb & _). exists pre, tag, ws, inner, post.
  exact Hb.
Qed.

(** ** Trimming and splitting *)

Lemma lstrip_app_nonspace k x t :
  is_space x = false -> lstrip (k ++ x :: t) = lstrip k ++ x :: t.
Proof.
  intros Hx. induction k as [|c k IH]; simpl.
  - rewrite Hx. reflexivity.
  - destruct (is_space c); [exact IH|reflexivity].
Qed.

Lemma rstrip_app_nonspace a x v :
  is_space x = false -> rstrip (a ++ x :: v) = a ++ x :: rstrip v.
Proof.
  intros Hx. unfold rstrip.
  rewrite rev_app_distr. simpl. rewrite <- app_assoc. simpl.
  rewrite (lstrip_app_nonspace _ _ _ Hx), rev_app_distr. simpl.
  rewrite rev_involutive, <- app_assoc. reflexivity.
Qed.

Lemma lstrip_idem s : lstrip (lstrip s) = lstrip s.
Proof.
  induction s as [|c s IH]; simpl; [reflexivity|].
  destruct (is_space c) eqn:E; [exact IH|]. simpl. rewrite E. reflexivity.
Qed.

Lemma rstrip_idem s : rstrip (rstrip s) = rstrip s.
Proof. unfold rstrip. rewrite rev_involutive, lstrip_idem. reflexivity. Qed.

Lemma lstrip_cases s :
  (forallb is_space s = true /\ lstrip s = [])
  \/ exists sp x t,
       s = sp ++ x :: t /\ forallb is_space sp = true /\ is_space x = false
       /\ lstrip s = x :: t.
Proof.
  induction s as [|c s IH]; simpl; [left; auto|].
  destruct (is_space c) eqn:E; simpl.
  - destruct IH as [H|(sp & x & t & -> & Hsp & Hx & Hl)]; [left; exact H|].
    right. exists (c :: sp), x, t. simpl. rewrite E. auto.
  - right. exists [], c, s. auto.
Qed.

Lemma lstrip_all_space s : forallb is_space s = true -> lstrip s = [].
Proof.
  induction s as [|c s IH]; simpl; [reflexivity|].
  destruct (is_space c); [exact IH|discriminate].
Qed.

Lemma rstrip_all_space s : forallb is_space s = true -> rstrip s = [].
Proof.
  intros H. unfold rstrip. rewrite lstrip_all_space; [reflexivity|].
  rewrite forallb_forall in *. intros x Hx. apply H, in_rev, Hx.
Qed.

Lemma lstrip_rstrip s : lstrip (rstrip s) = rstrip (lstrip s).
Proof.
  destruct (lstrip_cases s) as [[Hs Hl]|(sp & x & t & -> & Hsp & Hx & Hl)].
  - rewrite Hl, (rstrip_all_space _ Hs). reflexivity.
  - rewrite Hl, (rstrip_app_nonspace _ _ _ Hx),
      (lstrip_app_nonspace _ _ _ Hx), (lstrip_all_space _ Hsp).
    symmetry. exact (rstrip_app_nonspace [] x t Hx).
Qed.

Lemma strip_lstrip s : strip (lstrip s) = strip s.
Proof. unfold strip. rewrite lstrip_idem. reflexivity. Qed.

Lemma strip_rstrip s : strip (rstrip s) = strip s.
Proof. unfold strip. rewrite lstrip_rstrip, rstrip_idem. reflexivity. Qed.

Lemma contains_In x s : contains x s = true <-> In x s.
Proof.
  unfold contains. rewrite existsb_exists. split.
  - intros (y & Hy & E). apply Ascii.eqb_eq in E. subst. exact Hy.
  - intros H. exists x. split; [exact H|apply Ascii.eqb_refl].
Qed.

Lemma split_first_spec x s :
  In x s ->
  s = fst (split_first x s) ++ x :: snd (split_first x s)
  /\ ~ In x (fst (split_first x s)).
Proof.
  induction s as [|c s IH]; simpl; [contradiction|].
  destruct (Ascii.eqb c x) eqn:E.
  - apply Ascii.eqb_eq in E. subst c. simpl. auto.
  - intros [->|H]; [rewrite Ascii.eqb_refl in E; discriminate|].
    destruct (IH H) as [E1 E2].
    destruct (split_first x s) as [k v]. simpl in *. split.
    + f_equal. exact E1.
    + intros [->|Hin]; [rewrite Ascii.eqb_refl in E; discriminate|auto].
Qed.

Lemma split_first_app x k v :
  ~ In x k -> split_first x (k ++ x :: v) = (k, v).
Proof.
  induction k as [|c k IH]; simpl; intros H.
  - rewrite Ascii.eqb_refl. reflexivity.
  - destruct (Ascii.eqb c x) eqn:E.
    + apply Ascii.eqb_eq in E. subst c. elim H. auto.
    + rewrite IH; [reflexivity|]. intros Hin. apply H. auto.
Qed.

Lemma colon_not_space : is_space colon = false.
Proof. reflexivity. Qed.

Lemma strip_colon_line k v :
  strip (k ++ colon :: v) = lstrip k ++ colon :: rstrip v.
Proof.
  unfold strip.
  rewrite (lstrip_app_nonspace _ _ _ colon_not_space).
  apply rstrip_app_nonspace, colon_not_space.
Qed.

(** Trimming a line first, as the code does, changes neither the test for a
    colon nor the trimmed key and value. *)
Lemma params_step_entry d line :
  params_step d line =
  if contains colon line
  then dict_set d (fst (line_entry line)) (snd (line_entry line))
  else d.
Proof.
  unfold params_step, line_entry.
  destruct (contains colon line) eqn:E.
  - apply contains_In in E.
    destruct (split_first_spec _ _ E) as [Hs Hk].
    destruct (split_first colon line) as [k v]. simpl in Hs, Hk. subst line.
    rewrite strip_colon_line.
    assert (Hin : contains colon (lstrip k ++ colon :: rstrip v) = true).
    { apply contains_In, in_elt. }
    rewrite Hin, split_first_app.
    + rewrite strip_lstrip, strip_rstrip. reflexivity.
    + intros H. apply Hk, lstrip_incl, H.
  - destruct (contains colon (strip line)) eqn:E'; [|reflexivity].
    apply contains_In, strip_incl, contains_In in E'. congruence.
Qed.

Lemma fold_params_step lines : forall d,
  fold_left params_step lines d =
  fold_left (fun d kv => dict_set d (fst kv) (snd kv))
    (map line_entry (filter (contains colon) lines)) d.
Proof.
  induction lines as [|line lines IH]; intros d; simpl; [reflexivity|].
  rewrite IH, params_step_entry.
  destruct (contains colon line); reflexivity.
Qed.

Lemma parse_params_block_spec block_name text :
  params_spec block_name text (parse_params_block block_name text).
Proof.
  unfold params_spec, parse_params_block, params_re.
  pose proof (search_block_None false (Lit block_name) [block_name]
                (tag_sem_lit block_name) text) as Hnone.
  destruct (re_search false (Lit block_name :: block_tail) text) as [m|] eqn:E.
  - split.
    + intros H. apply Hnone in H. discriminate.
    + intros inner Hb.
      apply (search_block_Some false (Lit block_name) [block_name]
               (tag_sem_lit block_name)) in E
        as (whole & tag & inner' & -> & Hb').
      assert (tag = block_name) as ->.
      { destruct Hb' as (? & ? & ? & (_ & (t & [<-|[]] & Hl) & _) & _).
        apply lit_eq_exact, Hl. }
      destruct (first_block_unique _ _ _ _ _ _ Hb Hb') as [_ <-].
      unfold group. cbn [nth captures].
      rewrite fold_params_step. reflexivity.
  - split; [reflexivity|].
    intros inner Hb. exfalso.
    apply (proj1 Hnone eq_refl). eapply first_block_has, Hb.
Qed.

(** ** Dictionaries *)

Lemma str_eqb_refl a : str_eqb a a = true.
Proof. apply str_eqb_eq. reflexivity. Qed.

Lemma str_eqb_neq a b : str_eqb a b = false <-> a <> b.
Proof.
  unfold str_eqb. destruct (list_eq_dec ascii_dec a b); split;
    congruence.
Qed.

Lemma dict_set_keys d k v :
  (In k (map fst d) -> map fst (dict_set d k v) = map fst d)
  /\ (~ In k (map fst d) -> dict_set d k v = d ++ [(k, v)]).
Proof.
  induction d as [|[k' v'] d [IH1 IH2]]; cbn [dict_set map fst In app].
  - split; [contradiction|reflexivity].
  - destruct (str_eqb k' k) eqn:E.
    + apply str_eqb_eq in E. subst k'. split; [reflexivity|].
      intros H. elim H. auto.
    + apply str_eqb_neq in E. split.
      * intros [H|H]; [contradiction|]. cbn [map fst]. f_equal. auto.
      * intros H. f_equal. apply IH2. intros Hin. apply H. auto.
Qed.

Lemma dict_get_set d k v k' :
  dict_get (dict_set d k v) k' =
  if str_eqb k k' then Some v else dict_get d k'.
Proof.
  induction d as [|[k0 v0] d IH]; cbn [dict_set dict_get].
  - reflexivity.
  - destruct (str_eqb k0 k) eqn:E; cbn [dict_get].
    + apply str_eqb_eq in E. subst k0.
      destruct (str_eqb k k'); reflexivity.
    + destruct (str_eqb k0 k') eqn:E'; [|exact IH].
      apply str_eqb_eq in E'. subst k0.
      destruct (str_eqb k k') eqn:E2; [|reflexivity].
      apply str_eqb_eq in E2. subst k'. rewrite str_eqb_refl in E.
      discriminate.
Qed.

Lemma dict_get_app d1 d2 k :
  dict_get (d1 ++ d2) k =
  match dict_get d1 k with Some v => Some v | None => dict_get d2 k end.
Proof.
  induction d1 as [|[k0 v0] d1 IH]; cbn [dict_get app]; [reflexivity|].
  destruct (str_eqb k0 k); [reflexivity|exact IH].
Qed.

Lemma dict_set_NoDup d k v :
  NoDup (map fst d) -> NoDup (map fst (dict_set d k v)).
Proof.
  intros H. destruct (in_dec (list_eq_dec ascii_dec) k (map fst d)) as [Hin|Hin].
  - rewrite (proj1 (dict_set_keys d k v) Hin). exact H.
  - rewrite (proj2 (dict_set_keys d k v) Hin), map_app. cbn [map fst].
    apply NoDup_app; auto.
    + constructor; [intros []|constructor].
    + intros x Hx [<-|[]]. contradiction.
Qed.

Lemma fold_assign_NoDup entries : forall d,
  NoDup (map fst d) -> NoDup (map fst (fold_left assign entries d)).
Proof.
  induction entries as [|e es IH]; intros d H; simpl; [exact H|].
  apply IH, dict_set_NoDup, H.
Qed.

Lemma fold_assign_get entries k : forall d,
  dict_get (fold_left assign entries d) k =
  match dict_get (rev entries) k with
  | Some v => Some v
  | None => dict_get d k
  end.
Proof.
  induction entries as [|[k0 v0] es IH]; intros d;
    cbn [fold_left rev]; [reflexivity|].
  rewrite IH, dict_get_app. unfold assign. cbn [fst snd dict_get].
  rewrite dict_get_set.
  destruct (dict_get (rev es) k); [reflexivity|].
  destruct (str_eqb k0 k); reflexivity.
Qed.

Lemma key_in_In keys k : key_in keys k = true <-> In k keys.
Proof.
  unfold key_in. rewrite existsb_exists. split.
  - intros (k' & H & E). apply str_eqb_eq in E. subst. exact H.
  - intros H. exists k. split; [exact H|apply str_eqb_refl].
Qed.

Lemma filter_twice {A} (f g : A -> bool) l :
  filter f (filter g l) = filter (fun x => g x && f x) l.
Proof.
  induction l as [|x l IH]; simpl; [reflexivity|].
  destruct (g x); simpl; [|exact IH]. destruct (f x); rewrite IH; reflexivity.
Qed.

Lemma fold_assign_keys entries : forall d,
  map fst (fold_left assign entries d) =
  map fst d
  ++ filter (fun k => negb (key_in (map fst d) k))
       (first_occurrences (map fst entries)).
Proof.
  induction entries as [|[k v] es IH]; intros d; simpl.
  - rewrite app_nil_r. reflexivity.
  - rewrite IH. unfold assign. simpl.
    destruct (key_in (map fst d) k) eqn:E; simpl.
    + apply key_in_In in E as Hin.
      rewrite (proj1 (dict_set_keys d k v) Hin). f_equal.
      rewrite filter_twice. apply filter_ext_in. intros x _.
      destruct (key_in (map fst d) x) eqn:Ex; simpl;
        [rewrite andb_false_r; reflexivity|].
      destruct (str_eqb x k) eqn:Exk; [|reflexivity].
      apply str_eqb_eq in Exk. subst x. congruence.
    + assert (Hin : ~ In k (map fst d)).
      { intros H. apply key_in_In in H. congruence. }
      rewrite (proj2 (dict_set_keys d k v) Hin), map_app, <- app_assoc.
      simpl. do 2 f_equal.
      rewrite filter_twice. apply filter_ext_in. intros x _.
      unfold key_in. rewrite existsb_app. simpl.
      rewrite orb_false_r, negb_orb. apply andb_comm.
Qed.

Lemma fold_assign_fresh entries : forall d,
  NoDup (map fst d ++ map fst entries) ->
  fold_left assign entries d = d ++ entries.
Proof.
  induction entries as [|[k v] es IH]; intros d H; simpl.
  - rewrite app_nil_r. reflexivity.
  - simpl in H. unfold assign at 2. simpl.
    assert (Hin : ~ In k (map fst d)).
    { apply NoDup_remove_2 in H. intros Hk. apply H, in_or_app. auto. }
    rewrite (proj2 (dict_set_keys d k v) Hin), IH.
    + rewrite <- app_assoc. reflexivity.
    + rewrite map_app, <- app_assoc. exact H.
Qed.

Lemma first_occurrences_In keys k :
  In k (first_occurrences keys) <-> In k keys.
Proof.
  induction keys as [|k0 keys IH]; simpl; [tauto|].
  rewrite filter_In, IH. split.
  - intros [H|[H _]]; auto.
  - intros [H|H]; [auto|].
    destruct (list_eq_dec ascii_dec k0 k) as [E|E]; [auto|].
    right. split; [exact H|].
    apply negb_true_iff, str_eqb_neq. congruence.
Qed.

Lemma filter_all {A} (f : A -> bool) l :
  (forall x, In x l -> f x = true) -> filter f l = l.
Proof.
  induction l as [|x l IH]; simpl; intros H; [reflexivity|].
  rewrite (H x) by auto. f_equal. apply IH. auto.
Qed.

(** ** The renderer *)

Lemma fold_append {A B} (f : A -> B) (l : list A) : forall acc,
  fold_left (fun acc x => acc ++ [f x]) l acc = acc ++ map f l.
Proof.
  induction l as [|x l IH]; intros acc; simpl.
  - rewrite app_nil_r. reflexivity.
  - rewrite IH, <- app_assoc. reflexivity.
Qed.


(** ** Sorting by key *)

Section SortBy.

Variable A : Type.
Variable key : A -> Z.

Lemma insert_by_perm x l : Permutation (insert_by key x l) (x :: l).
Proof.
  induction l as [|y l IH]; simpl; [reflexivity|].
  destruct (key x <=? key y)%Z; [reflexivity|].
  rewrite IH. apply perm_swap.
Qed.

Lemma sort_by_perm l : Permutation (sort_by key l) l.
Proof.
  induction l as [|x l IH]; simpl; [constructor|].
  rewrite insert_by_perm, IH. reflexivity.
Qed.

Lemma insert_by_sorted x l :
  StronglySorted (key_le key) l -> StronglySorted (key_le key) (insert_by key x l).
Proof.
  induction l as [|y l IH]; simpl; intros H.
  - constructor; constructor.
  - inversion H as [|? ? Hl Hy]; subst.
    destruct (key x <=? key y)%Z eqn:E.
    + apply Z.leb_le in E. constructor; [exact H|].
      constructor; [exact E|].
      eapply Forall_impl; [|exact Hy].
      intros b Hb. unfold key_le in *. lia.
    + apply Z.leb_gt in E. constructor; [apply IH, Hl|].
      apply (Permutation_Forall (Permutation_sym (insert_by_perm x l))).
      constructor; [unfold key_le; lia|exact Hy].
Qed.

Lemma sort_by_sorted l : StronglySorted (key_le key) (sort_by key l).
Proof.
  induction l as [|x l IH]; simpl; [constructor|].
  apply insert_by_sorted, IH.
Qed.

Lemma insert_by_filter k x l :
  filter (fun a => (key a =? k)%Z) (insert_by key x l)
  = filter (fun a => (key a =? k)%Z) (x :: l).
Proof.
  induction l as [|y l IH]; [reflexivity|].
  cbn [insert_by]. destruct (key x <=? key y)%Z eqn:E; [reflexivity|].
  apply Z.leb_gt in E. cbn [filter] in *. rewrite IH.
  destruct (key x =? k)%Z eqn:Ex; [|reflexivity].
  destruct (key y =? k)%Z eqn:Ey; [|reflexivity].
  apply Z.eqb_eq in Ex, Ey. lia.
Qed.

(** Records with the same key keep their order. *)
Lemma sort_by_stable k l :
  filter (fun a => (key a =? k)%Z) (sort_by key l)
  = filter (fun a => (key a =? k)%Z) l.
Proof.
  induction l as [|x l IH]; [reflexivity|].
  cbn [sort_by]. rewrite insert_by_filter. cbn [filter]. rewrite IH.
  reflexivity.
Qed.

Lemma sorted_nth_error l : StronglySorted (key_le key) l ->
  forall i j a b, i < j -> nth_error l i = Some a -> nth_error l j = Some b ->
                  key_le key a b.
Proof.
  induction 1 as [|x l Hl IH Hx]; intros i j a b Hij Hi Hj.
  - destruct i; discriminate.
  - destruct j as [|j]; [lia|]. simpl in Hj. destruct i as [|i]; simpl in Hi.
    + injection Hi as <-. rewrite Forall_forall in Hx.
      apply Hx. eapply nth_error_In, Hj.
    + apply (IH i j); auto. lia.
Qed.

End SortBy.

(** The block the search finds is the first block. *)
Lemma search_first_block l text inner :
  first_block_body l text = Some inner -> first_block false [l] text l inner.
Proof.
  unfold first_block_body.
  destruct (re_search false (Lit l :: block_tail) text) as [m|] eqn:E;
    [|discriminate].
  intros [= <-].
  apply (search_block_Some false (Lit l) [l] (tag_sem_lit l)) in E
    as (whole & tag & inner & -> & Hb).
  unfold group. cbn [captures nth].
  assert (tag = l) as ->; [|exact Hb].
  destruct Hb as (? & ? & ? & (_ & (t & [<-|[]] & Hl) & _) & _).
  apply lit_eq_exact, Hl.
Qed.

(** * The properties of the specification *)

Section Claims.

Variable J : Type.
Variable json_loads : str -> loads_result J.
Variable json_dumps_indent2 : J -> str.

Local Abbreviation parse := (parse_bru_file J json_loads json_dumps_indent2).

Lemma method_search_Some content m :
  re_search true method_re content = Some m ->
  exists whole tag inner,
    m = [whole; tag; inner] /\ first_block true METHODS content tag inner
    /\ In (upper tag) HTTP_METHODS.
Proof.
  intros H.
  apply (search_block_Some true (Cap (Alt METHODS)) METHODS
           (tag_sem_alt true METHODS)) in H
    as (whole & tag & inner & -> & Hb).
  exists whole, tag, inner. repeat split; auto.
  destruct Hb as (pre & ws & post & (_ & (t & Ht & Hlit) & _) & _).
  rewrite (lit_eq_upper _ _ Hlit).
  change HTTP_METHODS with (map upper METHODS).
  apply in_map, Ht.
Qed.

Lemma meta_search_Some content m :
  re_search false meta_re content = Some m ->
  exists whole inner,
    m = [whole; inner] /\ first_block false ["meta" : str] content "meta" inner.
Proof.
  intros H.
  apply (search_block_Some false (Lit "meta") ["meta" : str]
           (tag_sem_lit "meta")) in H
    as (whole & tag & inner & -> & Hb).
  exists whole, inner. split; [reflexivity|].
  assert (tag = "meta") as ->; [|exact Hb].
  destruct Hb as (pre & ws & post & (_ & (t & [<-|[]] & Hlit) & _) & _).
  apply lit_eq_exact, Hlit.
Qed.


(** C1, on the code: for the minimal input [meta { name: X / seq: 3 }] and
    [get { url: /foo }] the extractor returns name [X], seq 3, method [GET],
    empty parameter maps and an empty body, but the url is the placeholder
    [No URL found], since [url:] does not start a line of the block; with
    [url:] at the start of a line the url is [/foo]. *)
Theorem C1_minimal_request_url_not_found :
  parse minimal_request
  = Some (mkRequest "X" 3 "GET" "No URL found" [] [] [] [])
  /\ parse minimal_request_url_line
     = Some (mkRequest "X" 3 "GET" "/foo" [] [] [] []).
Proof.
  rewrite !parse_bru_file_eq. split; vm_compute; reflexivity.
Qed.


(** C3, on the code: [name:] and [seq:] are searched for anywhere in the
    meta block, not at the start of a line.  A name that mentions [seq: 12]
    ahead of the block's own [seq: 3] line gives the record seq 12. *)
Theorem C3_seq_taken_from_inside_name :
  parse seq_in_name_request
  = Some (mkRequest "Retry seq: 12 check" 12 "GET" "/foo" [] [] [] []).
Proof.
  rewrite parse_bru_file_eq. vm_compute. reflexivity.
Qed.

(** The defaults of [name] and [seq], for the search the code does. *)
Lemma name_seq_defaults content r inner :
  parse content = Some r ->
  first_block false ["meta" : str] content "meta" inner ->
  (~ name_occurrence inner -> name r = "Unnamed Request")
  /\ (~ seq_occurrence inner -> seq r = 999%Z).
Proof.
  rewrite parse_bru_file_eq. intros H Hb.
  destruct (re_search false meta_re content) as [mm|] eqn:Emeta;
    [|discriminate].
  destruct (re_search true method_re content) as [me|]; [|discriminate].
  injection H as <-. simpl.
  apply meta_search_Some in Emeta as (whole & inner' & -> & Hb').
  destruct (first_block_unique _ _ _ _ _ _ Hb Hb') as [_ <-].
  unfold group. cbn [nth]. split; intros Hno.
  - apply name_search_None in Hno. rewrite Hno. reflexivity.
  - apply seq_search_None in Hno. rewrite Hno. reflexivity.
Qed.


(** C7, on the code: the body of a [body:json] block stops at the first
    closing brace, so the embedded object is never found and never
    pretty-printed; the request with the object [{ "a": 1 }] gets the text
    up to that brace in a [json] fence.  On every text the body field is
    [body_of], whatever [json.loads] and [json.dumps] do. *)
Theorem C7_json_body_not_pretty_printed :
  parse json_body_request
  = Some (mkRequest "X" 999 "POST" "/foo" [] [] []
            ("```json" ++ [nl] ++ "{" ++ [dquote] ++ "a" ++ [dquote] ++ ": 1"
               ++ [nl] ++ "```"))
  /\ (forall content r, parse content = Some r -> body r = body_of content).
Proof.
  split.
  - rewrite parse_bru_file_eq. vm_compute. reflexivity.
  - intros content r. rewrite parse_bru_file_eq.
    destruct (re_search false meta_re content); [|discriminate].
    destruct (re_search true method_re content); [|discriminate].
    intros [= <-]. reflexivity.
Qed.


(** C5: each of the three parameter maps comes from the first block with
    its tag in the whole text of the file; the block body is cut into lines,
    a line with a colon gives the trimmed texts before and after its first
    colon, a line without one gives nothing, and no block gives an empty
    map; entries with distinct keys stay in the order of their lines. *)
Theorem C5_parameter_blocks content r :
  parse content = Some r ->
  params_spec "params:path" content (path_params r)
  /\ params_spec "params:query" content (query_params r)
  /\ params_spec "headers" content (headers r)
  /\ (forall entries, NoDup (map fst entries) -> dict_of entries = entries).
Proof.
  rewrite parse_bru_file_eq. intros H.
  destruct (re_search false meta_re content) as [mm|]; [|discriminate].
  destruct (re_search true method_re content) as [me|]; [|discriminate].
  injection H as <-. simpl.
  repeat split; try apply parse_params_block_spec.
  intros entries H. apply (fold_assign_fresh entries []). exact H.
Qed.

(** C6: a key that two lines of a parameter block share occurs once in the
    map, with the value of the later line, at the place of its first line. *)
Theorem C6_duplicate_keys block_name text inner :
  first_block false [block_name] text block_name inner ->
  NoDup (map fst (parse_params_block block_name text))
  /\ map fst (parse_params_block block_name text)
     = first_occurrences (map fst (block_entries inner))
  /\ (forall k, In k (map fst (block_entries inner))
                <-> In k (map fst (parse_params_block block_name text)))
  /\ (forall k, dict_get (parse_params_block block_name text) k
                = last_value k (block_entries inner)).
Proof.
  intros Hb.
  rewrite (proj2 (parse_params_block_spec block_name text) inner Hb).
  unfold dict_of. fold assign.
  assert (Hkeys : map fst (fold_left assign (block_entries inner) [])
                  = first_occurrences (map fst (block_entries inner))).
  { rewrite fold_assign_keys. simpl. apply filter_all. reflexivity. }
  repeat split.
  - apply fold_assign_NoDup. constructor.
  - exact Hkeys.
  - rewrite Hkeys. apply first_occurrences_In.
  - rewrite Hkeys. apply first_occurrences_In.
  - intros k. rewrite fold_assign_get. unfold last_value.
    destruct (dict_get (rev (block_entries inner)) k); reflexivity.
Qed.

Lemma requests_of_flat_map files :
  requests_of J json_loads json_dumps_indent2 files
  = flat_map (fun content => opt_list (parse content)) files.
Proof.
  unfold requests_of.
  assert (H : forall acc,
            fold_left
              (fun requests_data content =>
                 match parse content with
                 | Some parsed_data => requests_data ++ [parsed_data]
                 | None => requests_data
                 end) files acc
            = acc ++ flat_map (fun content => opt_list (parse content)) files).
  { induction files as [|c files IH]; intros acc; simpl.
    - rewrite app_nil_r. reflexivity.
    - rewrite IH. destruct (parse c); simpl.
      + rewrite <- app_assoc. reflexivity.
      + reflexivity. }
  apply (H []).
Qed.

(** C8, as amended: the records of a folder are those of its files that
    parse, ordered by ascending seq, records of equal seq in discovery
    order, and the document renders them in that order; a record that
    declared no seq holds 999, so it comes after every record whose seq is
    below 999. *)
Theorem C8_sorted_by_seq files :
  Permutation (sorted_requests J json_loads json_dumps_indent2 files)
    (flat_map (fun content => opt_list (parse content)) files)
  /\ StronglySorted (fun a b => (seq a <= seq b)%Z)
       (sorted_requests J json_loads json_dumps_indent2 files)
  /\ (forall k,
        filter (fun r => (seq r =? k)%Z)
          (sorted_requests J json_loads json_dumps_indent2 files)
        = filter (fun r => (seq r =? k)%Z)
            (flat_map (fun content => opt_list (parse content)) files))
  /\ (forall folder_name,
        folder_markdown J json_loads json_dumps_indent2 folder_name files
        = join [nl]
            (("# " ++ folder_name ++ [nl])
               :: map generate_request_markdown
                    (sorted_requests J json_loads json_dumps_indent2 files)))
  /\ (forall content inner u d i j,
        parse content = Some u ->
        first_block false ["meta" : str] content "meta" inner ->
        ~ seq_occurrence inner ->
        (seq d < 999)%Z ->
        nth_error (sorted_requests J json_loads json_dumps_indent2 files) i
        = Some u ->
        nth_error (sorted_requests J json_loads json_dumps_indent2 files) j
        = Some d ->
        j < i).
Proof.
  unfold sorted_requests. rewrite requests_of_flat_map.
  repeat split.
  - apply sort_by_perm.
  - apply sort_by_sorted.
  - intros k. apply sort_by_stable.
  - intros folder_name. unfold folder_markdown, sorted_requests.
    rewrite requests_of_flat_map, (fold_append generate_request_markdown).
    reflexivity.
  - intros content inner u d i j Hu Hb Hno Hd Hi Hj.
    pose proof (proj2 (name_seq_defaults _ _ _ Hu Hb) Hno) as Hseq.
    destruct (Nat.lt_trichotomy i j) as [Hlt|[->|Hgt]]; [exfalso| exfalso |exact Hgt].
    + pose proof (sorted_nth_error _ seq _ (sort_by_sorted _ seq _)
                    i j u d Hlt Hi Hj) as Hle.
      unfold key_le in Hle. lia.
    + rewrite Hi in Hj. injection Hj as <-. lia.
Qed.


End Claims.

(** * The properties on the sample files *)


(** C5 on a request with a [headers] block: the line without a colon gives
    no entry, [B: x:y] is cut at its first colon. *)
Lemma C5_parameter_blocks_witness :
  parse_bru_file unit sample_loads sample_dumps headers_request
  = Some (mkRequest "H" 999 "GET" "No URL found" [] []
            [("A" : str, "3" : str); ("B" : str, "x:y" : str)] [])
  /\ params_spec "headers" headers_request
       [("A" : str, "3" : str); ("B" : str, "x:y" : str)]
  /\ block_entries headers_request_inner
     = [("A" : str, "1" : str); ("B" : str, "x:y" : str);
        ("A" : str, "3" : str)].
Proof.
  assert (H : parse_bru_file unit sample_loads sample_dumps headers_request
              = Some (mkRequest "H" 999 "GET" "No URL found" [] []
                        [("A" : str, "3" : str); ("B" : str, "x:y" : str)]
                        []))
    by (vm_compute; reflexivity).
  split; [exact H|]. split; [|vm_compute; reflexivity].
  exact (proj1 (proj2 (proj2
           (C5_parameter_blocks unit sample_loads sample_dumps _ _ H)))).
Defined.

(** C6 on the same block: the key [A] of two lines occurs once, first, with
    the value of the later line. *)
Lemma C6_duplicate_keys_witness :
  first_block false ["headers" : str] headers_request "headers"
    headers_request_inner
  /\ NoDup (map fst (parse_params_block "headers" headers_request))
  /\ parse_params_block "headers" headers_request
     = [("A" : str, "3" : str); ("B" : str, "x:y" : str)]
  /\ dict_get (parse_params_block "headers" headers_request) "A"
     = last_value "A" (block_entries headers_request_inner).
Proof.
  assert (Hb : first_block false ["headers" : str] headers_request "headers"
                 headers_request_inner)
    by (apply search_first_block; vm_compute; reflexivity).
  split; [exact Hb|].
  destruct (C6_duplicate_keys "headers" headers_request _ Hb)
    as (H1 & _ & _ & H4).
  split; [exact H1|]. split; [vm_compute; reflexivity|apply H4].
Defined.


(** C8, as the claim states it, fails on a folder of two requests: the one
    that declares no seq comes before the one that declares [seq: 1000]. *)
Lemma C8_undeclared_seq_before_seq_1000 :
  parse_bru_file unit sample_loads sample_dumps seq_1000_request
  = Some (mkRequest "A" 1000 "GET" "No URL found" [] [] [] [])
  /\ parse_bru_file unit sample_loads sample_dumps no_seq_request
     = Some (mkRequest "B" 999 "GET" "No URL found" [] [] [] [])
  /\ sorted_requests unit sample_loads sample_dumps
       [seq_1000_request; no_seq_request]
     = [mkRequest "B" 999 "GET" "No URL found" [] [] [] [];
        mkRequest "A" 1000 "GET" "No URL found" [] [] [] []].
Proof.
  repeat split; vm_compute; reflexivity.
Qed.

(** C8 as amended, on a folder of three requests. *)
Lemma C8_sorted_by_seq_witness :
  sorted_requests unit sample_loads sample_dumps
    [seq_1000_request; no_seq_request; seq_2_request]
  = [mkRequest "C" 2 "GET" "No URL found" [] [] [] [];
     mkRequest "B" 999 "GET" "No URL found" [] [] [] [];
     mkRequest "A" 1000 "GET" "No URL found" [] [] [] []]
  /\ StronglySorted (fun a b => (seq a <= seq b)%Z)
       [mkRequest "C" 2 "GET" "No URL found" [] [] [] [];
        mkRequest "B" 999 "GET" "No URL found" [] [] [] [];
        mkRequest "A" 1000 "GET" "No URL found" [] [] [] []].
Proof.
  assert (E : sorted_requests unit sample_loads sample_dumps
                [seq_1000_request; no_seq_request; seq_2_request]
              = [mkRequest "C" 2 "GET" "No URL found" [] [] [] [];
                 mkRequest "B" 999 "GET" "No URL found" [] [] [] [];
                 mkRequest "A" 1000 "GET" "No URL found" [] [] [] []])
    by (vm_compute; reflexivity).
  split; [exact E|].
  destruct (C8_sorted_by_seq unit sample_loads sample_dumps
              [seq_1000_request; no_seq_request; seq_2_request])
    as (_ & Hsorted & _).
  rewrite E in Hsorted. exact Hsorted.
Defined.

(** * Further properties of the extractor *)

(** ** Greedy quantifiers *)

Lemma run_app_stop c w r :
  forallb c w = true -> stops c r -> run c (w ++ r) = List.length w.
Proof.
  intros Hw Hr. induction w as [|x w IH]; simpl.
  - destruct r as [|y r]; [reflexivity|]. simpl in *. rewrite Hr. reflexivity.
  - simpl in Hw. apply andb_prop in Hw as [-> Hw]. rewrite (IH Hw).
    reflexivity.
Qed.

Lemma rep_counts_greedy lo n :
  lo <= n -> rep_counts lo n true = n :: rev (List.seq lo (n - lo)).
Proof.
  intros H. unfold rep_counts.
  replace (S n - lo) with (S (n - lo)) by lia.
  rewrite seq_S, rev_app_distr. simpl. f_equal. f_equal. lia.
Qed.

(** A greedy quantifier keeps its longest repetition when the rest of the
    pattern matches after it. *)
Lemma greedy_takes_all ic (a : atom) c lo p prev s caps rest :
  a = Rep c lo true \/ a = Cap (Rep c lo true) ->
  lo <= run c s ->
  match_here ic p (last_char prev (firstn (run c s) s)) (skipn (run c s) s)
  = Some (caps, rest) ->
  match_here ic (a :: p) prev s
  = Some (if captures a then firstn (run c s) s :: caps else caps, rest).
Proof.
  intros Ha Hlo Hm.
  assert (E : atom_splits ic a prev s
              = map (fun k => (firstn k s, skipn k s))
                  (rep_counts lo (run c s) true))
    by (destruct Ha as [-> | ->]; reflexivity).
  cbn [match_here]. rewrite E, (rep_counts_greedy _ _ Hlo).
  cbn [map first_some fst snd]. rewrite Hm. reflexivity.
Qed.

Lemma lit_here l p prev s :
  match_here false (Lit l :: p) prev (l ++ s)
  = match_here false p (last_char prev l) s.
Proof.
  cbn [match_here atom_splits captures].
  rewrite (lit_split_complete false l l s (lit_eq_refl l)).
  cbn [opt_list first_some fst snd].
  destruct (match_here false p (last_char prev l) s) as [[? ?]|]; reflexivity.
Qed.

Lemma lstrip_run s : lstrip s = skipn (run is_space s) s.
Proof.
  induction s as [|c s IH]; simpl; [reflexivity|].
  destruct (is_space c); [exact IH|reflexivity].
Qed.

(** The search succeeds at a position when no earlier position matches. *)
Lemma search_from_leftmost ic p : forall pre prev suf caps rest,
  match_here ic p (last_char prev pre) suf = Some (caps, rest) ->
  (forall pre' suf',
      pre ++ suf = pre' ++ suf' -> List.length pre' < List.length pre ->
      match_here ic p (last_char prev pre') suf' = None) ->
  search_from ic p prev (pre ++ suf)
  = Some (firstn (List.length suf - List.length rest) suf :: caps).
Proof.
  induction pre as [|c pre IH]; intros prev suf caps rest Hm Hleft.
  - simpl in *. rewrite search_from_eq, Hm. reflexivity.
  - rewrite search_from_eq.
    pose proof (Hleft [] ((c :: pre) ++ suf) eq_refl) as H0.
    cbn [last_char fold_left List.length] in H0.
    rewrite H0 by lia.
    cbn [app]. apply IH; [exact Hm|].
    intros pre' suf' E Hlt. apply (Hleft (c :: pre') suf').
    + simpl. f_equal. exact E.
    + simpl. lia.
Qed.

Lemma at_line_start_last_char pre :
  at_line_start pre ->
  last_char None pre = None \/ last_char None pre = Some nl.
Proof.
  intros [->|[pre' ->]]; [left; reflexivity|].
  right. apply last_char_snoc.
Qed.

(** ** Uniqueness of the first method block *)

Lemma method_tag_chars t tag :
  In t METHODS -> lit_eq true t tag ->
  forall c, In c tag -> is_space c = false /\ c <> lbrace.
Proof.
  intros Ht Hl.
  assert (H : forallb (fun t =>
                forallb (fun a =>
                  forallb (fun c => implb (char_eq true a c)
                                      (negb (is_space c)
                                       && negb (Ascii.eqb c lbrace)))
                    all_ascii) t) METHODS = true)
    by (vm_compute; reflexivity).
  rewrite forallb_forall in H. specialize (H t Ht).
  rewrite forallb_forall in H. clear Ht.
  induction Hl as [|a c0 l w Hac Hl IH]; intros c; [intros []|].
  intros [<-|Hc].
  - specialize (H a (or_introl eq_refl)). rewrite forallb_forall in H.
    specialize (H c0 (in_all_ascii c0)). rewrite Hac in H. simpl in H.
    apply andb_prop in H as [H1 H2].
    apply negb_true_iff in H1, H2. split; [exact H1|].
    intros ->. rewrite Ascii.eqb_refl in H2. discriminate.
  - apply IH; [|exact Hc]. intros x Hx. apply H. right. exact Hx.
Qed.

Lemma app_class_unique (f : ascii -> bool) : forall a a' b b' : str,
  a ++ b = a' ++ b' ->
  forallb f a = true -> forallb f a' = true ->
  stops f b -> stops f b' -> a = a' /\ b = b'.
Proof.
  induction a as [|x a IH]; intros [|x' a'] b b' E Ha Ha' Hb Hb'; simpl in *.
  - auto.
  - subst b. simpl in Hb. apply andb_prop in Ha' as [Hx _]. congruence.
  - subst b'. simpl in Hb'. apply andb_prop in Ha as [Hx _]. congruence.
  - injection E as -> E. apply andb_prop in Ha as [_ Ha].
    apply andb_prop in Ha' as [_ Ha'].
    destruct (IH _ _ _ E Ha Ha' Hb Hb') as [-> ->]. auto.
Qed.

Lemma first_block_methods_unique text tag1 inner1 tag2 inner2 :
  first_block true METHODS text tag1 inner1 ->
  first_block true METHODS text tag2 inner2 ->
  tag1 = tag2 /\ inner1 = inner2.
Proof.
  intros (pre1 & ws1 & post1 & B1 & N1 & L1) (pre2 & ws2 & post2 & B2 & N2 & L2).
  pose proof (L1 _ _ _ _ _ B2) as H12. pose proof (L2 _ _ _ _ _ B1) as H21.
  destruct B1 as (E1 & (t1 & Ht1 & T1) & W1).
  destruct B2 as (E2 & (t2 & Ht2 & T2) & W2).
  pose proof (method_tag_chars _ _ Ht1 T1) as C1.
  pose proof (method_tag_chars _ _ Ht2 T2) as C2.
  rewrite E1 in E2.
  apply app_eq_length_inj in E2 as [_ E2]; [|lia].
  set (f := fun c => negb (is_space c) && negb (Ascii.eqb c lbrace)).
  assert (Hnot : forall tag,
             (forall c, In c tag -> is_space c = false /\ c <> lbrace) ->
             forallb f tag = true).
  { intros tag H. apply forallb_forall. intros c Hc.
    destruct (H c Hc) as [Hs Hb]. unfold f. rewrite Hs. simpl.
    apply negb_true_iff, Ascii.eqb_neq, Hb. }
  assert (Hstop : forall ws rest,
             forallb is_space ws = true -> stops f (ws ++ lbrace :: rest)).
  { intros [|x ws] rest Hws; simpl.
    - reflexivity.
    - simpl in Hws. apply andb_prop in Hws as [Hx _]. unfold f.
      rewrite Hx. reflexivity. }
  apply (app_class_unique f) in E2 as [-> E2]; auto.
  split; [reflexivity|].
  apply (split_unique (fun y => is_space y = true)) in E2 as (_ & _ & E2).
  - apply (split_unique (fun y => y <> rbrace)) in E2 as (E2 & _); auto.
    + intros y Hy ->. contradiction.
    + intros y Hy ->. contradiction.
  - intros y. apply forallb_space_In, W1.
  - vm_compute. discriminate.
  - intros y. apply forallb_space_In, W2.
  - vm_compute. discriminate.
Qed.

(** ** The values of [name], [seq] and [url] *)

Lemma greedy_last ic c lo prev s :
  lo <= run c s ->
  match_here ic [Cap (Rep c lo true)] prev s
  = Some ([firstn (run c s) s], skipn (run c s) s).
Proof.
  intros Hlo.
  apply (greedy_takes_all ic (Cap (Rep c lo true)) c lo [] prev s []);
    [right; reflexivity|exact Hlo|reflexivity].
Qed.

Lemma name_search_value pre rest :
  (forall pre' rest',
      pre ++ "name:" ++ rest = pre' ++ "name:" ++ rest' ->
      List.length pre <= List.length pre') ->
  exists whole,
    re_search false name_re (pre ++ "name:" ++ rest)
    = Some [whole; line_head (lstrip rest)].
Proof.
  intros Hleft. unfold re_search, line_head. rewrite lstrip_run. eexists.
  apply search_from_leftmost.
  - unfold name_re. rewrite lit_here.
    apply (greedy_takes_all false (Rep is_space 0 true) is_space 0);
      [left; reflexivity|lia|].
    apply greedy_last. lia.
  - intros pre' suf' E Hlt.
    destruct (match_here false name_re (last_char None pre') suf')
      as [[caps rest']|] eqn:Em; [exfalso|reflexivity].
    apply match_here_sound in Em. unfold name_re in Em.
    cbn [matches atom_sem] in Em.
    destruct Em as (w & r & c1 & (Hw & Es) & _).
    apply lit_eq_exact in Hw. subst w suf'.
    specialize (Hleft _ _ E). lia.
Qed.

Lemma digit_not_space d : is_digit d = true -> is_space d = false.
Proof.
  assert (H : forall d, implb (is_digit d) (negb (is_space d)) = true)
    by (apply forall_ascii; vm_compute; reflexivity).
  intros Hd. specialize (H d). rewrite Hd in H. apply negb_true_iff, H.
Qed.

Lemma seq_search_value pre ws ds post :
  forallb is_space ws = true -> forallb is_digit ds = true -> ds <> [] ->
  stops is_digit post ->
  (forall pre' ws' d' post',
      pre ++ "seq:" ++ ws ++ ds ++ post = pre' ++ "seq:" ++ ws' ++ d' :: post' ->
      forallb is_space ws' = true -> is_digit d' = true ->
      List.length pre <= List.length pre') ->
  exists whole,
    re_search false seq_re (pre ++ "seq:" ++ ws ++ ds ++ post)
    = Some [whole; ds].
Proof.
  intros Hws Hds Hne Hpost Hleft. unfold re_search.
  assert (Hrun_ws : run is_space (ws ++ ds ++ post) = List.length ws).
  { apply run_app_stop; [exact Hws|].
    destruct ds as [|d ds]; [contradiction|]. simpl in *.
    apply andb_prop in Hds as [Hd _]. apply digit_not_space, Hd. }
  assert (Hrun_ds : run is_digit (ds ++ post) = List.length ds)
    by (apply run_app_stop; assumption).
  assert (Hskip : skipn (List.length ws) (ws ++ ds ++ post) = ds ++ post).
  { rewrite skipn_app, Nat.sub_diag, skipn_all. reflexivity. }
  assert (Hfirst : firstn (List.length ds) (ds ++ post) = ds).
  { rewrite firstn_app, Nat.sub_diag, firstn_all. simpl. apply app_nil_r. }
  eexists. apply search_from_leftmost.
  - unfold seq_re. rewrite lit_here.
    apply (greedy_takes_all false (Rep is_space 0 true) is_space 0);
      [left; reflexivity|lia|].
    rewrite Hrun_ws, Hskip.
    rewrite (greedy_last false is_digit 1), Hrun_ds, Hfirst; [reflexivity|].
    rewrite Hrun_ds. destruct ds; [contradiction|simpl; lia].
  - intros pre' suf' E Hlt.
    destruct (match_here false seq_re (last_char None pre') suf')
      as [[caps rest']|] eqn:Em; [exfalso|reflexivity].
    apply match_here_sound in Em. unfold seq_re in Em.
    cbn [matches atom_sem] in Em.
    destruct Em as (w & r & c1 & (Hw & Es) & Hm1 & _).
    apply lit_eq_exact in Hw. subst w suf'.
    destruct Hm1 as (ws' & r2 & c2 & (E2 & Hws' & _) & Hm2 & _). subst r.
    destruct Hm2 as (ds' & r3 & c3 & (E3 & Hds' & Hlen) & _). subst r2.
    destruct ds' as [|d' ds']; [simpl in Hlen; lia|].
    simpl in Hds'. apply andb_prop in Hds' as [Hd' _].
    specialize (Hleft pre' ws' d' (ds' ++ r3) E Hws' Hd'). lia.
Qed.

Lemma bol_here ic p prev s :
  prev = None \/ prev = Some nl ->
  match_here ic (Bol :: p) prev s = match_here ic p prev s.
Proof.
  intros [-> | ->]; cbn [match_here atom_splits captures].
  - cbn [first_some fst snd last_char fold_left].
    destruct (match_here ic p None s) as [[? ?]|]; reflexivity.
  - change (Ascii.eqb nl nl) with true.
    cbn [first_some fst snd last_char fold_left].
    destruct (match_here ic p (Some nl) s) as [[? ?]|]; reflexivity.
Qed.

Lemma eol_here ic prev s :
  at_line_end s -> match_here ic [Eol] prev s = Some ([], s).
Proof.
  intros [->|[s' ->]]; reflexivity.
Qed.

Lemma url_search_value pre ws v post :
  at_line_start pre -> forallb is_space ws = true ->
  forallb is_dot v = true -> v <> [] -> stops is_space v ->
  at_line_end post ->
  (forall pre' post',
      pre ++ "url:" ++ ws ++ v ++ post = pre' ++ "url:" ++ post' ->
      at_line_start pre' -> List.length pre <= List.length pre') ->
  exists whole,
    re_search false url_re (pre ++ "url:" ++ ws ++ v ++ post)
    = Some [whole; v].
Proof.
  intros Hpre Hws Hv Hne Hv0 Hpost Hleft. unfold re_search.
  assert (Hrun_ws : run is_space (ws ++ v ++ post) = List.length ws).
  { apply run_app_stop; [exact Hws|].
    destruct v as [|x v]; [contradiction|exact Hv0]. }
  assert (Hrun_v : run is_dot (v ++ post) = List.length v).
  { apply run_app_stop; [exact Hv|].
    destruct Hpost as [->|[post' ->]]; reflexivity. }
  assert (Hskip : skipn (List.length ws) (ws ++ v ++ post) = v ++ post).
  { rewrite skipn_app, Nat.sub_diag, skipn_all. reflexivity. }
  assert (Hfirst : firstn (List.length v) (v ++ post) = v).
  { rewrite firstn_app, Nat.sub_diag, firstn_all. simpl. apply app_nil_r. }
  assert (Hrest : skipn (List.length v) (v ++ post) = post).
  { rewrite skipn_app, Nat.sub_diag, skipn_all. reflexivity. }
  eexists. apply search_from_leftmost.
  - unfold url_re.
    rewrite bol_here by (apply at_line_start_last_char, Hpre).
    rewrite lit_here.
    apply (greedy_takes_all false (Rep is_space 0 true) is_space 0);
      [left; reflexivity|lia|].
    rewrite Hrun_ws, Hskip.
    rewrite (greedy_takes_all false (Cap (Rep is_dot 1 true)) is_dot 1
               [Eol] _ _ [] post).
    + rewrite Hrun_v, Hfirst. reflexivity.
    + right. reflexivity.
    + rewrite Hrun_v. destruct v; [contradiction|simpl; lia].
    + rewrite Hrun_v, Hrest. apply eol_here, Hpost.
  - intros pre' suf' E Hlt.
    destruct (match_here false url_re (last_char None pre') suf')
      as [[caps rest']|] eqn:Em; [exfalso|reflexivity].
    apply match_here_sound in Em. unfold url_re in Em.
    cbn [matches atom_sem] in Em.
    destruct Em as (w0 & r0 & c0 & (_ & E0 & Hprev) & Hm1 & _). subst r0.
    destruct Hm1 as (w & r & c1 & (Hw & Es) & _).
    apply lit_eq_exact in Hw. subst w suf'.
    specialize (Hleft _ _ E (last_char_line_start _ Hprev)). lia.
Qed.

Section ExtractorValues.

Variable J : Type.
Variable json_loads : str -> loads_result J.
Variable json_dumps_indent2 : J -> str.

Local Abbreviation parse := (parse_bru_file J json_loads json_dumps_indent2).

(** The fields of a record in terms of the bodies of its two blocks. *)
Lemma parse_fields content r meta_inner tag method_inner :
  parse content = Some r ->
  first_block false ["meta" : str] content "meta" meta_inner ->
  first_block true METHODS content tag method_inner ->
  name r = match re_search false name_re meta_inner with
           | Some m => strip (group m 1)
           | None => "Unnamed Request"
           end
  /\ seq r = match re_search false seq_re meta_inner with
            | Some m => int_of_digits (group m 1)
            | None => 999%Z
            end
  /\ method r = upper tag
  /\ url r = match re_search false url_re method_inner with
            | Some m => strip (group m 1)
            | None => "No URL found"
            end.
Proof.
  rewrite parse_bru_file_eq. intros H Hmeta Hmethod.
  destruct (re_search false meta_re content) as [mm|] eqn:Emeta;
    [|discriminate].
  destruct (re_search true method_re content) as [me|] eqn:Emethod;
    [|discriminate].
  injection H as <-. simpl.
  apply meta_search_Some in Emeta as (whole & inner' & -> & Hb').
  destruct (first_block_unique _ _ _ _ _ _ Hmeta Hb') as [_ <-].
  apply method_search_Some in Emethod as (whole2 & tag' & inner2 & -> & Hb2 & _).
  destruct (first_block_methods_unique _ _ _ _ _ Hmethod Hb2) as [<- <-].
  unfold group. cbn [nth]. auto.
Qed.

Lemma parse_Some_blocks content r :
  parse content = Some r ->
  exists meta_inner tag method_inner,
    first_block false ["meta" : str] content "meta" meta_inner
    /\ first_block true METHODS content tag method_inner.
Proof.
  rewrite parse_bru_file_eq. intros H.
  destruct (re_search false meta_re content) as [mm|] eqn:Emeta;
    [|discriminate].
  destruct (re_search true method_re content) as [me|] eqn:Emethod;
    [|discriminate].
  apply meta_search_Some in Emeta as (whole & inner & _ & Hb).
  apply method_search_Some in Emethod as (whole2 & tag & inner2 & _ & Hb2 & _).
  exists inner, tag, inner2. auto.
Qed.

(** X1: the name is the trimmed rest of the line after the first [name:] of
    the meta block, white space (line ends included) skipped first: a blank
    value takes the text of the next line. *)
Theorem X1_name_value content r inner pre rest :
  parse content = Some r ->
  first_block false ["meta" : str] content "meta" inner ->
  inner = pre ++ "name:" ++ rest ->
  (forall pre' rest',
      inner = pre' ++ "name:" ++ rest' ->
      List.length pre <= List.length pre') ->
  name r = strip (line_head (lstrip rest)).
Proof.
  intros Hr Hmeta -> Hleft.
  destruct (parse_Some_blocks _ _ Hr) as (mi & tag & minner & _ & Hmethod).
  destruct (parse_fields _ _ _ _ _ Hr Hmeta Hmethod) as (-> & _).
  destruct (name_search_value pre rest Hleft) as [whole ->].
  reflexivity.
Qed.

(** X2: the seq is the number written by the digits that follow the first
    [seq:] of the meta block that has digits after it (white space between
    them allowed), whatever comes after the digits. *)
Theorem X2_seq_value content r inner pre ws ds post :
  parse content = Some r ->
  first_block false ["meta" : str] content "meta" inner ->
  inner = pre ++ "seq:" ++ ws ++ ds ++ post ->
  forallb is_space ws = true -> forallb is_digit ds = true -> ds <> [] ->
  stops is_digit post ->
  (forall pre' ws' d' post',
      inner = pre' ++ "seq:" ++ ws' ++ d' :: post' ->
      forallb is_space ws' = true -> is_digit d' = true ->
      List.length pre <= List.length pre') ->
  seq r = int_of_digits ds.
Proof.
  intros Hr Hmeta -> Hws Hds Hne Hpost Hleft.
  destruct (parse_Some_blocks _ _ Hr) as (mi & tag & minner & _ & Hmethod).
  destruct (parse_fields _ _ _ _ _ Hr Hmeta Hmethod) as (_ & -> & _).
  destruct (seq_search_value pre ws ds post Hws Hds Hne Hpost Hleft)
    as [whole ->].
  reflexivity.
Qed.

(** X3: when the first line of the method block that starts with [url:]
    has a value, the url is that value trimmed: the rest of the line after
    [url:] and the white space that follows it. *)
Theorem X3_url_value content r tag inner pre ws v post :
  parse content = Some r ->
  first_block true METHODS content tag inner ->
  inner = pre ++ "url:" ++ ws ++ v ++ post ->
  at_line_start pre -> forallb is_space ws = true ->
  forallb is_dot v = true -> v <> [] -> stops is_space v ->
  at_line_end post ->
  (forall pre' post',
      inner = pre' ++ "url:" ++ post' ->
      at_line_start pre' -> List.length pre <= List.length pre') ->
  url r = strip v.
Proof.
  intros Hr Hmethod -> Hpre Hws Hv Hne Hv0 Hpost Hleft.
  destruct (parse_Some_blocks _ _ Hr) as (mi & tag' & minner & Hmeta & _).
  destruct (parse_fields _ _ _ _ _ Hr Hmeta Hmethod) as (_ & _ & _ & ->).
  destruct (url_search_value pre ws v post Hpre Hws Hv Hne Hv0 Hpost Hleft)
    as [whole ->].
  reflexivity.
Qed.

End ExtractorValues.

(** * The traversal of [main] *)

Lemma tree_induction (P : tree -> Prop) :
  (forall root_name files dirs,
      Forall P dirs -> P (Dir root_name files dirs)) ->
  forall t, P t.
Proof.
  intros H.
  refine (fix IH (t : tree) : P t :=
            match t with
            | Dir root_name files dirs =>
                H root_name files dirs
                  ((fix go (l : list tree) : Forall P l :=
                      match l with
                      | [] => Forall_nil P
                      | d :: l' => Forall_cons d (IH d) (go l')
                      end) dirs)
            end).
Qed.

Lemma str_in_In x l : str_in x l = true <-> In x l.
Proof.
  unfold str_in. rewrite existsb_exists. split.
  - intros (y & Hy & E). apply str_eqb_eq in E. subst. exact Hy.
  - intros H. exists x. split; [exact H|apply str_eqb_refl].
Qed.

Section MainFacts.

Variable J : Type.
Variable json_loads : str -> loads_result J.
Variable json_dumps_indent2 : J -> str.

Local Abbreviation parse := (parse_bru_file J json_loads json_dumps_indent2).
Local Abbreviation parse_text := (parse_file J json_loads json_dumps_indent2).
Local Abbreviation requests :=
  (directory_requests J json_loads json_dumps_indent2).
Local Abbreviation document := (folder_document J json_loads json_dumps_indent2).

Lemma directory_requests_flat_map files :
  requests files
  = flat_map (fun file => if is_request_file (fst file)
                          then opt_list (parse_text (snd file)) else [])
      files.
Proof.
  unfold directory_requests.
  assert (H : forall acc,
            fold_left
              (fun requests_data file =>
                 if endswith (fst file) ".bru"
                    && negb (str_eqb (fst file) "folder.bru")
                 then match parse_text (snd file) with
                      | Some parsed_data => requests_data ++ [parsed_data]
                      | None => requests_data
                      end
                 else requests_data) files acc
            = acc ++ flat_map
                       (fun file => if is_request_file (fst file)
                                    then opt_list (parse_text (snd file))
                                    else []) files).
  { induction files as [|f files IH]; intros acc; cbn [fold_left flat_map].
    - rewrite app_nil_r. reflexivity.
    - rewrite IH. unfold is_request_file.
      destruct (endswith (fst f) ".bru" && negb (str_eqb (fst f) "folder.bru"));
        [|reflexivity].
      destruct (parse_text (snd f)); simpl; [|reflexivity].
      rewrite <- app_assoc. reflexivity. }
  apply (H []).
Qed.

(** X4: a directory gets no README exactly when none of its files is both
    a request file (a name ending in [.bru] other than [folder.bru]) and a
    readable text that parses to a record; otherwise the README is the
    title line and the sections of the records, ordered by seq. *)
Theorem X4_folder_document root_name files :
  (document root_name files = None <->
   forall file_name text,
     In (file_name, text) files -> is_request_file file_name = true ->
     parse_text text = None)
  /\ (forall markdown,
        document root_name files = Some markdown ->
        markdown
        = join [nl]
            (("# " ++ folder_display_name root_name files ++ [nl])
               :: map generate_request_markdown
                    (sort_by seq (requests files)))).
Proof.
  unfold folder_document. split.
  - rewrite directory_requests_flat_map.
    set (f := fun file : str * option str =>
                if is_request_file (fst file)
                then opt_list (parse_text (snd file)) else []).
    assert (Hnil : flat_map f files = [] <->
                   forall file, In file files -> f file = []).
    { induction files as [|x l IH]; simpl.
      - split; [intros _ ? []|reflexivity].
      - split.
        + intros H. apply app_eq_nil in H as [Hx Hl].
          intros file [<-|Hin]; [exact Hx|]. apply IH; assumption.
        + intros H. rewrite (H x) by auto. simpl. apply IH.
          intros file Hin. apply H. auto. }
    destruct (flat_map f files) as [|r rs] eqn:E.
    + split; [|reflexivity]. intros _ file_name text Hin Hreq.
      pose proof (proj1 Hnil eq_refl _ Hin) as Hf. unfold f in Hf.
      simpl in Hf. rewrite Hreq in Hf.
      destruct (parse_text text); [discriminate|reflexivity].
    + split; [discriminate|]. intros H. exfalso.
      assert (Hall : forall file, In file files -> f file = []).
      { intros [file_name text] Hin. unfold f. simpl.
        destruct (is_request_file file_name) eqn:Hreq; [|reflexivity].
        rewrite (H _ _ Hin Hreq). reflexivity. }
      apply Hnil in Hall. discriminate.
  - intros markdown.
    destruct (requests files) as [|r rs] eqn:E; [discriminate|].
    intros [= <-]. rewrite (fold_append generate_request_markdown).
    reflexivity.
Qed.

End MainFacts.

Section WalkFacts.

Variable J : Type.
Variable json_loads : str -> loads_result J.
Variable json_dumps_indent2 : J -> str.
Variable ignore_list : list str.

Local Abbreviation document :=
  (folder_document J json_loads json_dumps_indent2).
Local Abbreviation walk_from :=
  (walk J json_loads json_dumps_indent2 ignore_list).
Local Abbreviation visit_at := (visit J json_loads json_dumps_indent2).
Local Abbreviation entry := (top_level_entry J json_loads json_dumps_indent2).

Lemma visit_written rel root_name files st :
  written (visit_at rel root_name files st)
  = written st
    ++ match document root_name files with
       | Some markdown => [(rel ++ ["README.md" : str], markdown)]
       | None => []
       end.
Proof.
  unfold visit. destruct (document root_name files).
  - destruct (List.length rel =? 1); reflexivity.
  - rewrite app_nil_r. reflexivity.
Qed.

Lemma visit_top rel root_name files st :
  top_level_folders (visit_at rel root_name files st)
  = top_level_folders st
    ++ (if List.length rel =? 1
        then match document root_name files with
             | Some _ => [(folder_display_name root_name files,
                           rel ++ ["README.md" : str])]
             | None => []
             end
        else []).
Proof.
  unfold visit. destruct (document root_name files).
  - destruct (List.length rel =? 1); simpl; [reflexivity|].
    rewrite app_nil_r. reflexivity.
  - destruct (List.length rel =? 1); rewrite app_nil_r; reflexivity.
Qed.

Lemma walk_eq rel root_name files dirs st :
  walk_from rel (Dir root_name files dirs) st
  = fold_left
      (fun st d =>
         if str_in (dir_name d) ignore_list then st
         else walk_from (rel ++ [dir_name d]) d st)
      dirs (visit_at rel root_name files st).
Proof. reflexivity. Qed.

(** What the walk writes: the README of every directory it reaches. *)
Lemma walk_written t : forall rel st p c,
  In (p, c) (written (walk_from rel t st))
  <-> In (p, c) (written st)
      \/ exists q t',
           reach ignore_list t q t'
           /\ p = rel ++ q ++ ["README.md" : str]
           /\ document (dir_name t') (dir_files t') = Some c.
Proof.
  induction t as [root_name files dirs IH] using tree_induction.
  intros rel st p c. rewrite walk_eq.
  assert (Hfold : forall st0,
    In (p, c)
      (written
         (fold_left
            (fun st d =>
               if str_in (dir_name d) ignore_list then st
               else walk_from (rel ++ [dir_name d]) d st) dirs st0))
    <-> In (p, c) (written st0)
        \/ exists d q t',
             In d dirs /\ str_in (dir_name d) ignore_list = false
             /\ reach ignore_list d q t'
             /\ p = (rel ++ [dir_name d]) ++ q ++ ["README.md" : str]
             /\ document (dir_name t') (dir_files t') = Some c).
  { induction IH as [|d dirs Hd _ IHdirs]; intros st0; cbn [fold_left].
    - split; [auto|]. intros [H|(d & q & t' & [] & _)]. exact H.
    - rewrite IHdirs. destruct (str_in (dir_name d) ignore_list) eqn:Eig.
      + split.
        * intros [H|(d' & q & t' & Hin & H)]; [auto|].
          right. exists d', q, t'. split; [right; exact Hin|exact H].
        * intros [H|(d' & q & t' & [<-|Hin] & Hig & H)]; [auto| |].
          -- congruence.
          -- right. exists d', q, t'. split; [exact Hin|].
             split; [exact Hig|exact H].
      + rewrite Hd. split.
        * intros [[H|(q & t' & Hr & Hp & Hdoc)]|(d' & q & t' & Hin & H)].
          -- auto.
          -- right. exists d, q, t'.
             split; [left; reflexivity|]. repeat split; assumption.
          -- right. exists d', q, t'. split; [right; exact Hin|exact H].
        * intros [H|(d' & q & t' & [<-|Hin] & Hig & Hr & Hp & Hdoc)].
          -- auto.
          -- left. right. exists q, t'. repeat split; assumption.
          -- right. exists d', q, t'. repeat split; assumption. }
  rewrite Hfold, visit_written, in_app_iff. split.
  - intros [[H|H]|(d & q & t' & Hin & Hig & Hr & Hp & Hdoc)].
    + auto.
    + right. exists [], (Dir root_name files dirs).
      split; [constructor|]. simpl.
      destruct (document root_name files); [|contradiction].
      destruct H as [[= <- <-]|[]]. auto.
    + right. exists (dir_name d :: q), t'.
      split; [constructor; assumption|].
      split; [|exact Hdoc]. rewrite Hp, <- app_assoc. reflexivity.
  - intros [H|(q & t' & Hr & Hp & Hdoc)]; [auto|].
    inversion Hr as [|? ? ? d q' ? Hin Hig Hr']; subst.
    + left. right. simpl in Hdoc. rewrite Hdoc. left. reflexivity.
    + right. exists d, q', t'. repeat split; auto.
      rewrite <- app_assoc. reflexivity.
Qed.

(** The walk below the first level adds nothing to the index. *)
Lemma walk_top_deep t : forall rel st,
  1 <= List.length rel ->
  top_level_folders (walk_from rel t st)
  = top_level_folders st
    ++ (if List.length rel =? 1
        then match document (dir_name t) (dir_files t) with
             | Some _ => [(folder_display_name (dir_name t) (dir_files t),
                           rel ++ ["README.md" : str])]
             | None => []
             end
        else []).
Proof.
  induction t as [root_name files dirs IH] using tree_induction.
  intros rel st Hrel. rewrite walk_eq.
  assert (Hfold : forall st0,
    top_level_folders
      (fold_left
         (fun st d =>
            if str_in (dir_name d) ignore_list then st
            else walk_from (rel ++ [dir_name d]) d st) dirs st0)
    = top_level_folders st0).
  { induction IH as [|d dirs Hd _ IHdirs]; intros st0; cbn [fold_left];
      [reflexivity|].
    rewrite IHdirs. destruct (str_in (dir_name d) ignore_list); [reflexivity|].
    rewrite Hd by (rewrite length_app; simpl; lia).
    replace (List.length (rel ++ [dir_name d]) =? 1) with false.
    - apply app_nil_r.
    - symmetry. apply Nat.eqb_neq. rewrite length_app. simpl. lia. }
  rewrite Hfold, visit_top. reflexivity.
Qed.

(** From the root, the index collects the documented directories of the
    first level, in the order of the walk. *)
Lemma walk_top_root t :
  top_level_folders (walk_from [] t (mkState [] []))
  = top_level_entries J json_loads json_dumps_indent2 ignore_list t.
Proof.
  destruct t as [root_name files dirs]. rewrite walk_eq.
  unfold top_level_entries. cbn [dir_subdirs].
  assert (Hfold : forall st0,
    top_level_folders
      (fold_left
         (fun st d =>
            if str_in (dir_name d) ignore_list then st
            else walk_from ([] ++ [dir_name d]) d st) dirs st0)
    = top_level_folders st0
      ++ flat_map (fun d => if str_in (dir_name d) ignore_list then []
                            else entry d) dirs).
  { induction dirs as [|d dirs IHdirs]; intros st0; cbn [fold_left flat_map].
    - rewrite app_nil_r. reflexivity.
    - rewrite IHdirs. destruct (str_in (dir_name d) ignore_list);
        [reflexivity|].
      rewrite walk_top_deep by (simpl; lia).
      rewrite <- app_assoc. reflexivity. }
  rewrite Hfold, visit_top. reflexivity.
Qed.

Lemma reach_not_ignored t q t' :
  reach ignore_list t q t' ->
  forall d, In d q -> ~ In d ignore_list.
Proof.
  induction 1 as [|root_name files dirs d p t' Hin Hig Hr IH];
    intros x; [intros []|].
  intros [<-|Hx]; [|apply IH, Hx].
  intros H. apply str_in_In in H. congruence.
Qed.

End WalkFacts.

(** ** The order of the index *)

Section Lex.

Variable A : Type.
Variable ltb : A -> A -> bool.
Hypothesis ltb_asym : forall x y, ltb x y = true -> ltb y x = false.
Hypothesis ltb_negtrans : forall x y z,
  ltb x z = true -> ltb x y = true \/ ltb y z = true.

Lemma lex_asym : forall a b,
  lex_ltb ltb a b = true -> lex_ltb ltb b a = false.
Proof.
  induction a as [|x a IH]; intros [|y b]; simpl; try reflexivity;
    try discriminate.
  destruct (ltb x y) eqn:Exy.
  - rewrite (ltb_asym _ _ Exy). reflexivity.
  - destruct (ltb y x) eqn:Eyx; [discriminate|]. apply IH.
Qed.

Lemma lex_negtrans : forall a b c,
  lex_ltb ltb a c = true ->
  lex_ltb ltb a b = true \/ lex_ltb ltb b c = true.
Proof.
  induction a as [|x a IH]; intros [|y b] [|z c]; simpl; auto;
    try discriminate.
  destruct (ltb x z) eqn:Exz.
  - intros _. destruct (ltb_negtrans _ y _ Exz) as [H|H]; rewrite H; auto.
  - destruct (ltb z x) eqn:Ezx; [discriminate|]. intros Hac.
    destruct (ltb x y) eqn:Exy; [auto|].
    destruct (ltb y x) eqn:Eyx.
    + destruct (ltb_negtrans _ z _ Eyx) as [H|H]; [|congruence].
      rewrite H. auto.
    + destruct (ltb y z) eqn:Eyz.
      * destruct (ltb_negtrans _ x _ Eyz); congruence.
      * destruct (ltb z y) eqn:Ezy.
        -- destruct (ltb_negtrans _ x _ Ezy); congruence.
        -- apply IH, Hac.
Qed.

Lemma insert_lt_perm x l : Permutation (insert_lt ltb x l) (x :: l).
Proof.
  induction l as [|y l IH]; simpl; [reflexivity|].
  destruct (ltb y x); [|reflexivity].
  rewrite IH. apply perm_swap.
Qed.

Lemma sort_lt_perm l : Permutation (sort_lt ltb l) l.
Proof.
  induction l as [|x l IH]; simpl; [constructor|].
  rewrite insert_lt_perm, IH. reflexivity.
Qed.

Lemma insert_lt_sorted x l :
  StronglySorted (fun a b => ltb b a = false) l ->
  StronglySorted (fun a b => ltb b a = false) (insert_lt ltb x l).
Proof.
  induction l as [|y l IH]; simpl; intros H.
  - constructor; constructor.
  - inversion H as [|? ? Hl Hy]; subst.
    destruct (ltb y x) eqn:E.
    + constructor; [apply IH, Hl|].
      apply (Permutation_Forall (Permutation_sym (insert_lt_perm x l))).
      constructor; [apply ltb_asym, E|exact Hy].
    + constructor; [exact H|]. constructor; [exact E|].
      eapply Forall_impl; [|exact Hy]. intros z Hz. simpl in Hz.
      destruct (ltb z x) eqn:Ezx; [|reflexivity].
      destruct (ltb_negtrans _ y _ Ezx); congruence.
Qed.

Lemma sort_lt_sorted l :
  StronglySorted (fun a b => ltb b a = false) (sort_lt ltb l).
Proof.
  induction l as [|x l IH]; simpl; [constructor|].
  apply insert_lt_sorted, IH.
Qed.

End Lex.

Lemma char_ltb_asym x y : char_ltb x y = true -> char_ltb y x = false.
Proof.
  unfold char_ltb. intros H. apply Nat.ltb_lt in H. apply Nat.ltb_ge. lia.
Qed.

Lemma char_ltb_negtrans x y z :
  char_ltb x z = true -> char_ltb x y = true \/ char_ltb y z = true.
Proof.
  unfold char_ltb. intros H. apply Nat.ltb_lt in H.
  destruct (nat_of_ascii x <? nat_of_ascii y) eqn:E; [auto|].
  apply Nat.ltb_ge in E. right. apply Nat.ltb_lt. lia.
Qed.

Lemma str_ltb_asym a b : str_ltb a b = true -> str_ltb b a = false.
Proof. apply lex_asym, char_ltb_asym. Qed.

Lemma str_ltb_negtrans a b c :
  str_ltb a c = true -> str_ltb a b = true \/ str_ltb b c = true.
Proof. apply lex_negtrans, char_ltb_negtrans. Qed.

Lemma folder_ltb_asym a b : folder_ltb a b = true -> folder_ltb b a = false.
Proof.
  unfold folder_ltb. destruct (str_ltb (fst a) (fst b)) eqn:Eab.
  - rewrite (str_ltb_asym _ _ Eab). reflexivity.
  - destruct (str_ltb (fst b) (fst a)); [discriminate|].
    apply lex_asym, str_ltb_asym.
Qed.

Lemma folder_ltb_negtrans a b c :
  folder_ltb a c = true -> folder_ltb a b = true \/ folder_ltb b c = true.
Proof.
  unfold folder_ltb.
  destruct (str_ltb (fst a) (fst c)) eqn:Eac.
  - intros _. destruct (str_ltb_negtrans _ (fst b) _ Eac) as [H|H];
      rewrite H; auto.
  - destruct (str_ltb (fst c) (fst a)) eqn:Eca; [discriminate|]. intros Hac.
    destruct (str_ltb (fst a) (fst b)) eqn:Eab; [auto|].
    destruct (str_ltb (fst b) (fst a)) eqn:Eba.
    + destruct (str_ltb_negtrans _ (fst c) _ Eba) as [H|H]; [|congruence].
      rewrite H. auto.
    + destruct (str_ltb (fst b) (fst c)) eqn:Ebc.
      * destruct (str_ltb_negtrans _ (fst a) _ Ebc); congruence.
      * destruct (str_ltb (fst c) (fst b)) eqn:Ecb.
        -- destruct (str_ltb_negtrans _ (fst a) _ Ecb); congruence.
        -- apply (lex_negtrans _ _ str_ltb_negtrans), Hac.
Qed.

Lemma folder_ltb_names a b :
  folder_ltb b a = false -> str_ltb (fst b) (fst a) = false.
Proof.
  unfold folder_ltb. destruct (str_ltb (fst b) (fst a)); [discriminate|].
  reflexivity.
Qed.

Lemma read_back_last writes p c : read_back (writes ++ [(p, c)]) p = Some c.
Proof.
  unfold read_back. rewrite rev_app_distr. simpl.
  destruct (list_eq_dec (list_eq_dec ascii_dec) p p); [reflexivity|].
  contradiction.
Qed.

Lemma find_by_name {B} (files : list (str * B)) k v :
  NoDup (map fst files) -> In (k, v) files ->
  find (fun f => str_eqb (fst f) k) files = Some (k, v).
Proof.
  induction files as [|[k' v'] files IH]; simpl; [intros _ []|].
  intros Hnd [[= -> ->]|Hin].
  - fold (str_eqb k k). rewrite str_eqb_refl. reflexivity.
  - inversion Hnd as [|? ? Hk Hnd']; subst.
    destruct (str_eqb k' k) eqn:E.
    + apply str_eqb_eq in E. subst k'. elim Hk.
      apply (in_map fst) in Hin. exact Hin.
    + apply IH; assumption.
Qed.

Lemma find_no_name {B} (files : list (str * B)) k :
  ~ In k (map fst files) -> find (fun f => str_eqb (fst f) k) files = None.
Proof.
  induction files as [|[k' v'] files IH]; simpl; [reflexivity|].
  intros H. destruct (str_eqb k' k) eqn:E.
  - apply str_eqb_eq in E. subst k'. elim H. auto.
  - apply IH. intros Hin. apply H. auto.
Qed.

Lemma StronglySorted_weaken {A} (R R' : A -> A -> Prop) l :
  (forall a b, R a b -> R' a b) -> StronglySorted R l -> StronglySorted R' l.
Proof.
  intros HR. induction 1 as [|x l Hl IH Hx]; constructor; [exact IH|].
  eapply Forall_impl; [|exact Hx]. intros b. apply HR.
Qed.

(** X5: the display name of a directory is its own name when it has no
    [folder.bru], when that file cannot be read and when its text has no
    [name:]; otherwise it is the trimmed rest of the line after the first
    [name:] of the file, wherever in the file that is. *)
Theorem X5_folder_display_name root_name files :
  NoDup (map fst files) ->
  (~ In ("folder.bru" : str) (map fst files) ->
   folder_display_name root_name files = root_name)
  /\ (In ("folder.bru" : str, None) files ->
      folder_display_name root_name files = root_name)
  /\ (forall content,
        In ("folder.bru" : str, Some content) files ->
        ~ name_occurrence content ->
        folder_display_name root_name files = root_name)
  /\ (forall content pre rest,
        In ("folder.bru" : str, Some content) files ->
        content = pre ++ "name:" ++ rest ->
        (forall pre' rest',
            content = pre' ++ "name:" ++ rest' ->
            List.length pre <= List.length pre') ->
        folder_display_name root_name files
        = strip (line_head (lstrip rest))).
Proof.
  intros Hnd. unfold folder_display_name. repeat split.
  - intros H. rewrite (find_no_name _ _ H). reflexivity.
  - intros H. rewrite (find_by_name _ _ _ Hnd H). reflexivity.
  - intros content H Hno. rewrite (find_by_name _ _ _ Hnd H).
    apply name_search_None in Hno. rewrite Hno. reflexivity.
  - intros content pre rest H -> Hleft. rewrite (find_by_name _ _ _ Hnd H).
    destruct (name_search_value pre rest Hleft) as [whole ->]. reflexivity.
Qed.

(** X9: the index is its title line and, when a directory is linked, the
    [Endpoints] heading and one link per directory; the links are those of
    the given directories, each once, in an order in which the display
    names never decrease. *)
Theorem X9_index_document collection_name folders :
  index_document collection_name folders
  = join [nl]
      (("# API Documentation: " ++ collection_name ++ [nl])
         :: match folders with
            | [] => []
            | _ :: _ =>
                ("## Endpoints" ++ [nl])
                  :: map index_link (sort_lt folder_ltb folders)
            end)
  /\ Permutation (sort_lt folder_ltb folders) folders
  /\ StronglySorted (fun a b => str_ltb (fst b) (fst a) = false)
       (sort_lt folder_ltb folders).
Proof.
  repeat split.
  - unfold index_document. destruct folders as [|f folders]; [reflexivity|].
    rewrite (fold_append index_link). reflexivity.
  - apply sort_lt_perm.
  - eapply StronglySorted_weaken;
      [|apply (sort_lt_sorted _ folder_ltb folder_ltb_asym
                 folder_ltb_negtrans)].
    intros a b. apply folder_ltb_names.
Qed.

Section MainProperties.

Variable J : Type.
Variable json_loads : str -> loads_result J.
Variable json_dumps_indent2 : J -> str.

Local Abbreviation document :=
  (folder_document J json_loads json_dumps_indent2).
Local Abbreviation writes := (main_writes J json_loads json_dumps_indent2).
Local Abbreviation entries :=
  (top_level_entries J json_loads json_dumps_indent2).

Lemma main_writes_spec collection_name ignore collection p c :
  In (p, c) (writes collection_name ignore collection)
  <-> (p = ["README.md" : str]
       /\ c = index_document collection_name
                (entries (ignore ++ [".git" : str; "node_modules" : str])
                   collection))
      \/ exists q t',
           reach (ignore ++ [".git" : str; "node_modules" : str])
             collection q t'
           /\ p = q ++ ["README.md" : str]
           /\ document (dir_name t') (dir_files t') = Some c.
Proof.
  unfold main_writes. rewrite in_app_iff, walk_written, walk_top_root.
  simpl. split.
  - intros [[[]|H]|[[= <- <-]|[]]]; auto.
  - intros [[-> ->]|H]; auto.
Qed.

(** X6: the run writes the index at [README.md] and, for every directory
    that is reached from the collection root through directories whose
    names are not ignored and that has a request, the README of the
    directory at its relative path; it writes nothing else. *)
Theorem X6_main_writes collection_name ignore collection p c :
  In (p, c) (writes collection_name ignore collection)
  <-> (p = ["README.md" : str]
       /\ c = index_document collection_name
                (entries (ignore ++ [".git" : str; "node_modules" : str])
                   collection))
      \/ exists q t',
           reach (ignore ++ [".git" : str; "node_modules" : str])
             collection q t'
           /\ p = q ++ ["README.md" : str]
           /\ document (dir_name t') (dir_files t') = Some c.
Proof. apply main_writes_spec. Qed.

(** X7: no README is written in or below a directory whose name is in the
    ignore list of the collection or is [.git] or [node_modules]. *)
Theorem X7_ignored_directories collection_name ignore collection p c :
  In (p, c) (writes collection_name ignore collection) ->
  exists q,
    p = q ++ ["README.md" : str]
    /\ forall d, In d q ->
                 ~ In d ignore /\ d <> (".git" : str)
                 /\ d <> ("node_modules" : str).
Proof.
  intros H. apply main_writes_spec in H as [[-> _]|(q & t' & Hr & -> & _)].
  - exists []. split; [reflexivity|]. intros d [].
  - exists q. split; [reflexivity|]. intros d Hd.
    pose proof (reach_not_ignored _ _ _ _ Hr d Hd) as Hno.
    repeat split.
    + intros Hin. apply Hno, in_or_app. auto.
    + intros ->. apply Hno, in_or_app. right. left. reflexivity.
    + intros ->. apply Hno, in_or_app. right. right. left. reflexivity.
Qed.

(** X8: after the run the file [README.md] of the output directory holds
    the index, which links the documented directories of the first level
    that are not ignored; the README of the collection root itself, when
    the root has a request, is written to the same path before and is
    replaced. *)
Theorem X8_index_replaces_root_readme collection_name ignore collection :
  read_back (writes collection_name ignore collection) ["README.md" : str]
  = Some (index_document collection_name
            (entries (ignore ++ [".git" : str; "node_modules" : str])
               collection))
  /\ (forall markdown,
        document (dir_name collection) (dir_files collection)
        = Some markdown ->
        In (["README.md" : str], markdown)
          (writes collection_name ignore collection)).
Proof.
  split.
  - unfold main_writes. rewrite walk_top_root. apply read_back_last.
  - intros markdown H. apply main_writes_spec. right.
    exists [], collection. split; [constructor|]. auto.
Qed.

End MainProperties.

(** * The body and the parameter maps *)

Lemma match_block_tail_exact ic prev ws inner post :
  forallb is_space ws = true -> ~ In rbrace inner ->
  match_here ic block_tail prev (ws ++ lbrace :: inner ++ rbrace :: post)
  = Some ([inner], post).
Proof.
  intros Hws Hin.
  pose proof (match_here_complete _ _ _ _ _ _
                (matches_block_tail ic prev ws inner post Hws)) as Hsome.
  destruct (match_here ic block_tail prev
              (ws ++ lbrace :: inner ++ rbrace :: post))
    as [[caps rest]|] eqn:E; [|contradiction].
  apply match_block_tail in E as (ws' & inner' & E & Hws' & -> & Hin').
  apply (split_unique (fun y => is_space y = true)) in E as (_ & _ & E).
  - apply (split_unique (fun y => y <> rbrace)) in E as (-> & _ & ->); auto.
    + intros y Hy ->. contradiction.
    + intros y Hy ->. contradiction.
  - intros y. apply forallb_space_In, Hws.
  - vm_compute. discriminate.
  - intros y. apply forallb_space_In, Hws'.
  - vm_compute. discriminate.
Qed.

Lemma space_not_word c : is_space c = true -> is_word c = false.
Proof.
  assert (H : forall c, implb (is_space c) (negb (is_word c)) = true)
    by (apply forall_ascii; vm_compute; reflexivity).
  intros Hc. specialize (H c). rewrite Hc in H. apply negb_true_iff, H.
Qed.

Lemma body_search_None text :
  re_search false body_re text = None <-> ~ has_body_block text.
Proof.
  rewrite re_search_None. split.
  - intros H (pre & ty & ws & inner & post & E & Hty & Hne & Hws).
    apply (H pre _ [ty; inner] post E).
    unfold body_re. cbn [matches atom_sem captures].
    exists ("body:" : str), (ty ++ ws ++ lbrace :: inner ++ rbrace :: post),
      [ty; inner].
    repeat split; [apply lit_eq_refl|].
    exists ty, (ws ++ lbrace :: inner ++ rbrace :: post), [inner].
    repeat split; auto.
    + destruct ty; [contradiction|simpl; lia].
    + apply matches_block_tail, Hws.
  - intros H pre suf caps rest -> Hm. apply H.
    unfold body_re in Hm. cbn [matches atom_sem] in Hm.
    destruct Hm as (w & r & c1 & (Hw & E1) & Hm1 & _). subst suf.
    apply lit_eq_exact in Hw. subst w.
    destruct Hm1 as (ty & r2 & c2 & (E2 & Hty & Hlen) & Hm2 & _). subst r.
    apply matches_block_tail_inv in Hm2 as (ws & inner & -> & Hws & _).
    exists pre, ty, ws, inner, rest. repeat split; auto.
    intros ->. simpl in Hlen. lia.
Qed.

Lemma body_search_value pre ty ws inner post :
  body_block_at (pre ++ "body:" ++ ty ++ ws ++ lbrace :: inner ++ rbrace :: post)
    pre ty ws inner post ->
  ~ In rbrace inner ->
  (forall pre' ty' ws' inner' post',
      body_block_at
        (pre ++ "body:" ++ ty ++ ws ++ lbrace :: inner ++ rbrace :: post)
        pre' ty' ws' inner' post' ->
      List.length pre <= List.length pre') ->
  exists whole,
    re_search false body_re
      (pre ++ "body:" ++ ty ++ ws ++ lbrace :: inner ++ rbrace :: post)
    = Some [whole; ty; inner].
Proof.
  intros (_ & Hty & Hne & Hws) Hin Hleft. unfold re_search.
  assert (Hrun : run is_word (ty ++ ws ++ lbrace :: inner ++ rbrace :: post)
                 = List.length ty).
  { apply run_app_stop; [exact Hty|].
    destruct ws as [|x ws]; simpl; [reflexivity|].
    simpl in Hws. apply andb_prop in Hws as [Hx _].
    apply space_not_word, Hx. }
  eexists. apply search_from_leftmost.
  - unfold body_re. rewrite lit_here.
    rewrite (greedy_takes_all false (Cap (Rep is_word 1 true)) is_word 1
               block_tail _ _ [inner] post).
    + rewrite Hrun, firstn_app, Nat.sub_diag, firstn_all. simpl.
      rewrite app_nil_r. reflexivity.
    + right. reflexivity.
    + rewrite Hrun. destruct ty; [contradiction|simpl; lia].
    + rewrite Hrun, skipn_app, Nat.sub_diag, skipn_all. cbn [app skipn].
      apply match_block_tail_exact; assumption.
  - intros pre' suf' E Hlt.
    destruct (match_here false body_re (last_char None pre') suf')
      as [[caps rest']|] eqn:Em; [exfalso|reflexivity].
    apply match_here_sound in Em. unfold body_re in Em.
    cbn [matches atom_sem] in Em.
    destruct Em as (w & r & c1 & (Hw & E1) & Hm1 & _). subst suf'.
    apply lit_eq_exact in Hw. subst w.
    destruct Hm1 as (ty' & r2 & c2 & (E2 & Hty' & Hlen) & Hm2 & _). subst r.
    apply matches_block_tail_inv in Hm2 as (ws' & inner' & -> & Hws' & _).
    assert (Hb : body_block_at
                   (pre ++ "body:" ++ ty ++ ws ++ lbrace :: inner
                      ++ rbrace :: post) pre' ty' ws' inner' rest').
    { repeat split; auto. intros ->. simpl in Hlen. lia. }
    specialize (Hleft _ _ _ _ _ Hb). lia.
Qed.

Lemma sort_by_sorted_id {A} (key : A -> Z) l :
  StronglySorted (key_le key) l -> sort_by key l = l.
Proof.
  induction 1 as [|x l Hl IH Hx]; [reflexivity|].
  cbn [sort_by]. rewrite IH. destruct l as [|y l]; [reflexivity|].
  cbn [insert_by]. inversion Hx as [|? ? Hxy _]; subst.
  unfold key_le in Hxy. apply Z.leb_le in Hxy. rewrite Hxy. reflexivity.
Qed.

Lemma dict_set_In d k v a b :
  In (a, b) (dict_set d k v) -> In (a, b) d \/ (a = k /\ b = v).
Proof.
  induction d as [|[k' v'] d IH]; cbn [dict_set].
  - intros [[= <- <-]|[]]. auto.
  - destruct (str_eqb k' k) eqn:E.
    + apply str_eqb_eq in E. subst k'.
      intros [[= <- <-]|H]; [auto|]. left. right. exact H.
    + intros [H|H]; [left; left; exact H|].
      destruct (IH H) as [H'|H']; [left; right; exact H'|auto].
Qed.

Lemma split_In_chars sep s line c :
  In line (split sep s) -> In c line -> In c s /\ c <> sep.
Proof.
  revert line. induction s as [|x s IH]; intros line; cbn [split].
  - intros [<-|[]] [].
  - assert (Hx : Ascii.eqb x sep = false -> x <> sep).
    { intros E ->. rewrite Ascii.eqb_refl in E. discriminate. }
    assert (Hstep : forall l, In l (split sep s) -> In c l ->
                              In c (x :: s) /\ c <> sep).
    { intros l Hl Hc. destruct (IH l Hl Hc) as [H1 H2].
      split; [right; exact H1|exact H2]. }
    destruct (Ascii.eqb x sep) eqn:E.
    + intros [<-|Hl]; [intros []|]. apply Hstep, Hl.
    + specialize (Hx eq_refl).
      destruct (split sep s) as [|l ls] eqn:Es.
      * intros [<-|[]] [<-|[]]. split; [left; reflexivity|exact Hx].
      * intros [<-|Hl] Hc.
        -- destruct Hc as [<-|Hc].
           ++ split; [left; reflexivity|exact Hx].
           ++ apply (Hstep l); [left; reflexivity|exact Hc].
        -- apply (Hstep line); [right; exact Hl|exact Hc].
Qed.

Lemma strip_idem s : strip (strip s) = strip s.
Proof.
  unfold strip at 2. rewrite strip_rstrip, strip_lstrip. reflexivity.
Qed.

Lemma fold_params_step_In lines : forall d a b,
  In (a, b) (fold_left params_step lines d) ->
  In (a, b) d
  \/ exists line, In line lines /\ In colon line /\ (a, b) = line_entry line.
Proof.
  induction lines as [|line lines IH]; intros d a b; cbn [fold_left];
    [auto|].
  intros H. apply IH in H as [H|(l & Hl & Hc & E)].
  - rewrite params_step_entry in H.
    destruct (contains colon line) eqn:Ec; [|auto].
    apply dict_set_In in H as [H|[-> ->]]; [auto|].
    right. exists line. split; [left; reflexivity|].
    split; [apply contains_In, Ec|].
    destruct (line_entry line); reflexivity.
  - right. exists l. split; [right; exact Hl|]. auto.
Qed.

(** X12: in a parameter map no key holds a colon, neither keys nor values
    hold a line end or a closing brace, and both are trimmed: they neither
    start nor end with white space. *)
Theorem X12_params_entries block_name text k v :
  In (k, v) (parse_params_block block_name text) ->
  ~ In colon k /\ ~ In nl k /\ ~ In nl v
  /\ ~ In rbrace k /\ ~ In rbrace v
  /\ strip k = k /\ strip v = v.
Proof.
  unfold parse_params_block, params_re.
  destruct (re_search false (Lit block_name :: block_tail) text) as [m|] eqn:E;
    [|intros []].
  apply (search_block_Some false (Lit block_name) [block_name]
           (tag_sem_lit block_name)) in E
    as (whole & tag & inner & -> & (pre & ws & post & _ & Hno & _)).
  unfold group. cbn [nth captures]. intros H.
  apply fold_params_step_In in H as [[]|(line & Hline & Hcolon & E)].
  unfold line_entry in E.
  destruct (split_first_spec _ _ Hcolon) as [Hs Hk].
  destruct (split_first colon line) as [k0 v0]. simpl in Hs, Hk.
  injection E as -> ->.
  assert (Hchars : forall c, In c line -> In c inner /\ c <> nl).
  { intros c Hc. destruct (split_In_chars _ _ _ _ Hline Hc) as [H1 H2].
    split; [apply strip_incl, H1|exact H2]. }
  assert (Hk0 : forall c, In c (strip k0) -> In c line).
  { intros c Hc. rewrite Hs. apply in_or_app. left. apply strip_incl, Hc. }
  assert (Hv0 : forall c, In c (strip v0) -> In c line).
  { intros c Hc. rewrite Hs. apply in_or_app. right. right.
    apply strip_incl, Hc. }
  repeat split.
  - intros H. apply Hk, strip_incl, H.
  - intros H. apply Hk0, Hchars in H as [_ H]. contradiction.
  - intros H. apply Hv0, Hchars in H as [_ H]. contradiction.
  - intros H. apply Hk0, Hchars in H as [H _]. contradiction.
  - intros H. apply Hv0, Hchars in H as [H _]. contradiction.
  - apply strip_idem.
  - apply strip_idem.
Qed.

Section BodyAndOrder.

Variable J : Type.
Variable json_loads : str -> loads_result J.
Variable json_dumps_indent2 : J -> str.

Local Abbreviation parse := (parse_bru_file J json_loads json_dumps_indent2).

Lemma parse_body_field content r :
  parse content = Some r -> body r = body_of content.
Proof.
  rewrite parse_bru_file_eq.
  destruct (re_search false meta_re content); [|discriminate].
  destruct (re_search true method_re content); [|discriminate].
  intros [= <-]. reflexivity.
Qed.

(** X10: the body of a record is empty exactly when the text has no block
    [body:] with a subtype of word characters. *)
Theorem X10_body_empty_iff content r :
  parse content = Some r ->
  (body r = [] <-> ~ has_body_block content).
Proof.
  intros Hr. rewrite (parse_body_field _ _ Hr), <- body_search_None.
  unfold body_of. destruct (re_search false body_re content).
  - split; discriminate.
  - split; reflexivity.
Qed.

(** X11: the body of a record is the text of the first [body:] block, up
    to its first closing brace and trimmed, in a fence; the fence is
    labelled [json] when the subtype is [json] in any case, and with the
    subtype as written otherwise. *)
Theorem X11_body_fence content r pre ty ws inner post :
  parse content = Some r ->
  body_block_at content pre ty ws inner post ->
  ~ In rbrace inner ->
  (forall pre' ty' ws' inner' post',
      body_block_at content pre' ty' ws' inner' post' ->
      List.length pre <= List.length pre') ->
  body r = fence (body_label ty) (strip inner).
Proof.
  intros Hr Hb Hin Hleft. rewrite (parse_body_field _ _ Hr).
  pose proof Hb as (E & _). subst content.
  destruct (body_search_value _ _ _ _ _ Hb Hin Hleft) as [whole Hs].
  unfold body_of. rewrite Hs. reflexivity.
Qed.

(** X13: when the records of a folder come in an order in which the seq
    never decreases, the sort leaves them in that order. *)
Theorem X13_sorted_input_unchanged files :
  StronglySorted (fun a b => (seq a <= seq b)%Z)
    (requests_of J json_loads json_dumps_indent2 files) ->
  sorted_requests J json_loads json_dumps_indent2 files
  = requests_of J json_loads json_dumps_indent2 files.
Proof.
  intros H. unfold sorted_requests. apply sort_by_sorted_id, H.
Qed.

End BodyAndOrder.

(** * The further properties on the sample files *)

Lemma search_first_method_block text tag inner :
  first_method_block text = Some (tag, inner) ->
  first_block true METHODS text tag inner.
Proof.
  unfold first_method_block.
  destruct (re_search true method_re text) as [m|] eqn:E; [|discriminate].
  apply method_search_Some in E as (whole & tag' & inner' & -> & Hb & _).
  unfold group. cbn [nth option_map]. intros [= <- <-]. exact Hb.
Qed.

(** X1 on a request whose [name:] line is blank: the name is the text of
    the next line. *)
Lemma X1_name_value_witness :
  parse_bru_file unit sample_loads sample_dumps blank_name_request
  = Some (mkRequest "seq: 4" 4 "GET" "No URL found" [] [] [] [])
  /\ strip (line_head (lstrip ([nl] ++ "seq: 4" ++ [nl]))) = "seq: 4".
Proof.
  assert (H : parse_bru_file unit sample_loads sample_dumps blank_name_request
              = Some (mkRequest "seq: 4" 4 "GET" "No URL found" [] [] [] []))
    by (vm_compute; reflexivity).
  split; [exact H|].
  rewrite <- (X1_name_value unit sample_loads sample_dumps
                blank_name_request _
                ([nl] ++ "name:" ++ [nl] ++ "seq: 4" ++ [nl])
                [nl] ([nl] ++ "seq: 4" ++ [nl]) H).
  - reflexivity.
  - apply search_first_block. vm_compute. reflexivity.
  - reflexivity.
  - intros pre' rest' E. first_occurrence E pre'.
Defined.

(** X2 on a request with the seq [007x]: the seq is 7. *)
Lemma X2_seq_value_witness :
  parse_bru_file unit sample_loads sample_dumps seq_padded_request
  = Some (mkRequest "Unnamed Request" 7 "GET" "No URL found" [] [] [] [])
  /\ int_of_digits "007" = 7%Z.
Proof.
  assert (H : parse_bru_file unit sample_loads sample_dumps seq_padded_request
              = Some (mkRequest "Unnamed Request" 7 "GET" "No URL found"
                        [] [] [] []))
    by (vm_compute; reflexivity).
  split; [exact H|].
  rewrite <- (X2_seq_value unit sample_loads sample_dumps
                seq_padded_request _ (" seq: 007x " : str)
                (" " : str) (" " : str) ("007" : str) ("x " : str) H).
  - reflexivity.
  - apply search_first_block. vm_compute. reflexivity.
  - reflexivity.
  - reflexivity.
  - reflexivity.
  - discriminate.
  - reflexivity.
  - intros pre' ws' d' post' E _ _. first_occurrence E pre'.
Defined.

(** X3 on a request whose url has spaces on both sides. *)
Lemma X3_url_value_witness :
  parse_bru_file unit sample_loads sample_dumps url_value_request
  = Some (mkRequest "U" 999 "GET" "/foo" [] [] [] [])
  /\ strip ("/foo  " : str) = "/foo".
Proof.
  assert (H : parse_bru_file unit sample_loads sample_dumps url_value_request
              = Some (mkRequest "U" 999 "GET" "/foo" [] [] [] []))
    by (vm_compute; reflexivity).
  split; [exact H|].
  rewrite <- (X3_url_value unit sample_loads sample_dumps
                url_value_request _ ("get" : str)
                ([nl] ++ "url:   /foo  " ++ [nl] ++ "body: none" ++ [nl])
                [nl] ("   " : str) ("/foo  " : str)
                ([nl] ++ "body: none" ++ [nl]) H).
  - reflexivity.
  - apply search_first_method_block. vm_compute. reflexivity.
  - reflexivity.
  - right. exists []. reflexivity.
  - reflexivity.
  - reflexivity.
  - discriminate.
  - reflexivity.
  - right. eexists. reflexivity.
  - intros pre' post' E _. first_occurrence E pre'.
Defined.

(** X5 on a directory with a [folder.bru] that names it [Users]. *)
Lemma X5_folder_display_name_witness :
  NoDup (map fst (dir_files (Dir "users"
                               [("get.bru" : str, Some minimal_request_url_line);
                                ("folder.bru" : str, Some users_folder_bru)]
                               [])))
  /\ folder_display_name "users"
       [("get.bru" : str, Some minimal_request_url_line);
        ("folder.bru" : str, Some users_folder_bru)]
     = "Users".
Proof.
  assert (Hnd : NoDup (map fst
                         [("get.bru" : str, Some minimal_request_url_line);
                          ("folder.bru" : str, Some users_folder_bru)])).
  { repeat constructor; simpl; intuition discriminate. }
  split; [exact Hnd|].
  destruct (X5_folder_display_name "users" _ Hnd) as (_ & _ & _ & H).
  rewrite (H users_folder_bru ("meta {" ++ [nl] ++ "  ")
             (" Users" ++ [nl] ++ "}")).
  - reflexivity.
  - right. left. reflexivity.
  - reflexivity.
  - intros pre' rest' E. first_occurrence E pre'.
Defined.

(** X7 on the sample collection: the only folder README is that of
    [users]; nothing is written for [node_modules], [.git] and the ignored
    [drafts]. *)
Lemma X7_ignored_directories_witness :
  map fst (main_writes unit sample_loads sample_dumps "Sample"
             ["drafts" : str] sample_collection)
  = [["users" : str; "README.md" : str]; ["README.md" : str]]
  /\ exists q,
       ["users" : str; "README.md" : str] = q ++ ["README.md" : str]
       /\ forall d, In d q ->
                    ~ In d ["drafts" : str] /\ d <> (".git" : str)
                    /\ d <> ("node_modules" : str).
Proof.
  split; [vm_compute; reflexivity|].
  assert (H : exists c,
             In (["users" : str; "README.md" : str], c)
               (main_writes unit sample_loads sample_dumps "Sample"
                  ["drafts" : str] sample_collection)).
  { eexists. vm_compute. left. reflexivity. }
  destruct H as [c H].
  exact (X7_ignored_directories unit sample_loads sample_dumps _ _ _ _ _ H).
Defined.

(** X10 on the minimal request, which has no body block. *)
Lemma X10_body_empty_iff_witness :
  parse_bru_file unit sample_loads sample_dumps minimal_request
  = Some (mkRequest "X" 3 "GET" "No URL found" [] [] [] [])
  /\ ~ has_body_block minimal_request.
Proof.
  assert (H : parse_bru_file unit sample_loads sample_dumps minimal_request
              = Some (mkRequest "X" 3 "GET" "No URL found" [] [] [] []))
    by (vm_compute; reflexivity).
  split; [exact H|].
  apply (X10_body_empty_iff unit sample_loads sample_dumps _ _ H).
  reflexivity.
Defined.

(** X11 on a body of subtype [JSON]: the fence is labelled [json] and
    holds the text up to the first closing brace. *)
Lemma X11_body_fence_witness :
  parse_bru_file unit sample_loads sample_dumps upper_json_body_request
  = Some (mkRequest "X" 999 "GET" "No URL found" [] [] []
            (fence "json" ("{" ++ [dquote] ++ "a" ++ [dquote] ++ ": 1")))
  /\ body_label "JSON" = "json".
Proof.
  assert (H : parse_bru_file unit sample_loads sample_dumps
                upper_json_body_request
              = Some (mkRequest "X" 999 "GET" "No URL found" [] [] []
                        (fence "json"
                           ("{" ++ [dquote] ++ "a" ++ [dquote] ++ ": 1"))))
    by (vm_compute; reflexivity).
  split; [exact H|].
  assert (Hbody : fence "json" ("{" ++ [dquote] ++ "a" ++ [dquote] ++ ": 1")
                  = fence (body_label "JSON")
                      (strip ([nl] ++ "  {" ++ [dquote] ++ "a" ++ [dquote]
                                ++ ": 1"))).
  { apply (X11_body_fence unit sample_loads sample_dumps
             upper_json_body_request _
             ("meta { name: X }" ++ [nl] ++ "get { }" ++ [nl])
             ("JSON" : str) (" " : str)
             ([nl] ++ "  {" ++ [dquote] ++ "a" ++ [dquote] ++ ": 1")
             ([nl] ++ "}") H).
    - repeat split; try reflexivity. discriminate.
    - vm_compute. intuition discriminate.
    - intros pre' ty' ws' inner' post' (E & _). first_occurrence E pre'. }
  reflexivity.
Defined.

(** X12 on the sample headers: the entry of [B: x:y]. *)
Lemma X12_params_entries_witness :
  In ("B" : str, "x:y" : str) (parse_params_block "headers" headers_request)
  /\ ~ In colon ("B" : str) /\ strip ("x:y" : str) = "x:y".
Proof.
  assert (H : In ("B" : str, "x:y" : str)
                (parse_params_block "headers" headers_request))
    by (vm_compute; right; left; reflexivity).
  split; [exact H|].
  destruct (X12_params_entries _ _ _ _ H) as (H1 & _ & _ & _ & _ & _ & H2).
  split; [exact H1|exact H2].
Defined.

(** X13 on a folder whose files come in the order of their seq. *)
Lemma X13_sorted_input_unchanged_witness :
  requests_of unit sample_loads sample_dumps
    [seq_2_request; no_seq_request; seq_1000_request]
  = [mkRequest "C" 2 "GET" "No URL found" [] [] [] [];
     mkRequest "B" 999 "GET" "No URL found" [] [] [] [];
     mkRequest "A" 1000 "GET" "No URL found" [] [] [] []]
  /\ sorted_requests unit sample_loads sample_dumps
       [seq_2_request; no_seq_request; seq_1000_request]
     = requests_of unit sample_loads sample_dumps
         [seq_2_request; no_seq_request; seq_1000_request].
Proof.
  assert (E : requests_of unit sample_loads sample_dumps
                [seq_2_request; no_seq_request; seq_1000_request]
              = [mkRequest "C" 2 "GET" "No URL found" [] [] [] [];
                 mkRequest "B" 999 "GET" "No URL found" [] [] [] [];
                 mkRequest "A" 1000 "GET" "No URL found" [] [] [] []])
    by (vm_compute; reflexivity).
  split; [exact E|].
  apply X13_sorted_input_unchanged. rewrite E.
  repeat constructor; simpl; lia.
Defined.

(** * The files after the run *)

Lemma NoDup_map_In_eq {A B} (f : A -> B) (l : list A) x y :
  NoDup (map f l) -> In x l -> In y l -> f x = f y -> x = y.
Proof.
  induction l as [|a l IH]; simpl; [intros _ []|].
  intros Hnd Hx Hy E. inversion Hnd as [|? ? Ha Hnd']; subst.
  destruct Hx as [<-|Hx], Hy as [<-|Hy]; auto.
  - elim Ha. rewrite E. apply in_map, Hy.
  - elim Ha. rewrite <- E. apply in_map, Hx.
Qed.

Lemma reach_functional ignore_list t q t1 :
  well_named t -> reach ignore_list t q t1 ->
  forall t2, reach ignore_list t q t2 -> t1 = t2.
Proof.
  intros Hwn Hr. induction Hr as [|root_name files dirs d p t' Hin Hig Hr IH];
    intros t2 Hr2.
  - inversion Hr2. reflexivity.
  - inversion Hwn as [? ? ? Hnd Hall]; subst.
    inversion Hr2 as [|? ? ? d2 p2 ? Hin2 Hig2 Hr2' Ename]; subst.
    assert (d2 = d) as ->
      by (apply (NoDup_map_In_eq dir_name dirs); auto).
    apply IH; [|exact Hr2'].
    rewrite Forall_forall in Hall. apply Hall, Hin.
Qed.

Lemma read_back_unique writes p c :
  In (p, c) writes -> (forall c', In (p, c') writes -> c' = c) ->
  read_back writes p = Some c.
Proof.
  intros Hin Huniq. unfold read_back.
  assert (H : forall l,
            In (p, c) l -> (forall c', In (p, c') l -> c' = c) ->
            option_map snd
              (find (fun w => if list_eq_dec (list_eq_dec ascii_dec) (fst w) p
                              then true else false) l) = Some c).
  { induction l as [|[p' c'] l IH]; simpl; [intros []|].
    intros Hl Hu.
    destruct (list_eq_dec (list_eq_dec ascii_dec) p' p) as [->|Hne].
    - simpl. f_equal. apply Hu. left. reflexivity.
    - destruct Hl as [[= -> _]|Hl]; [contradiction|].
      apply IH; [exact Hl|]. intros c'' Hc. apply Hu. right. exact Hc. }
  apply H.
  - apply -> in_rev. exact Hin.
  - intros c' Hc. apply Huniq. apply in_rev. exact Hc.
Qed.

Section FinalFiles.

Variable J : Type.
Variable json_loads : str -> loads_result J.
Variable json_dumps_indent2 : J -> str.

(** X14: in a collection whose directories have different names under
    each parent, every directory below the root that the walk reaches and
    that has a request ends the run with its own document in its README. *)
Theorem X14_folder_readme_after_run collection_name ignore collection q t c :
  well_named collection ->
  reach (ignore ++ [".git" : str; "node_modules" : str]) collection q t ->
  q <> [] ->
  folder_document J json_loads json_dumps_indent2 (dir_name t) (dir_files t)
  = Some c ->
  read_back
    (main_writes J json_loads json_dumps_indent2 collection_name ignore
       collection)
    (q ++ ["README.md" : str])
  = Some c.
Proof.
  intros Hwn Hr Hq Hdoc. apply read_back_unique.
  - apply main_writes_spec. right. exists q, t. auto.
  - intros c' Hc'.
    apply main_writes_spec in Hc' as [[E _]|(q' & t' & Hr' & E & Hdoc')].
    + exfalso. destruct q as [|x q]; [contradiction|].
      destruct q; discriminate.
    + apply app_inv_tail in E. subst q'.
      rewrite (reach_functional _ _ _ _ Hwn Hr _ Hr') in Hdoc.
      congruence.
Qed.

End FinalFiles.

(** X14 on the sample collection: the README of [users]. *)
Lemma X14_folder_readme_after_run_witness :
  well_named sample_collection
  /\ read_back
       (main_writes unit sample_loads sample_dumps "Sample" ["drafts" : str]
          sample_collection)
       ["users" : str; "README.md" : str]
     = folder_document unit sample_loads sample_dumps "users"
         [("get.bru" : str, Some minimal_request_url_line);
          ("folder.bru" : str, Some users_folder_bru)].
Proof.
  assert (Hwn : well_named sample_collection).
  { repeat (constructor; simpl; try (intuition discriminate)). }
  split; [exact Hwn|].
  destruct (folder_document unit sample_loads sample_dumps "users"
              [("get.bru" : str, Some minimal_request_url_line);
               ("folder.bru" : str, Some users_folder_bru)]) as [c|] eqn:E;
    [|vm_compute in E; discriminate].
  apply (X14_folder_readme_after_run unit sample_loads sample_dumps "Sample"
           ["drafts" : str] sample_collection ["users" : str]
           (Dir "users"
              [("get.bru" : str, Some minimal_request_url_line);
               ("folder.bru" : str, Some users_folder_bru)]
              [Dir "node_modules"
                 [("x.bru" : str, Some minimal_request_url_line)] []])
           c Hwn).
  - unfold sample_collection.
    apply (reach_sub _ _ _ _
             (Dir "users"
                [("get.bru" : str, Some minimal_request_url_line);
                 ("folder.bru" : str, Some users_folder_bru)]
                [Dir "node_modules"
                   [("x.bru" : str, Some minimal_request_url_line)] []])
             []);
      [left; reflexivity|reflexivity|constructor].
  - discriminate.
  - exact E.
Defined.
